(** * Co-purchase recommendation engine (lab5.4/task3.py)

    A shallow embedding of the recommendation pipeline of
    [lab5.4/task3.py]: the co-purchase graph builder, the candidate
    scorer, the fairness re-ranker, the explainer and the
    [recommend_for_user] driver, followed by the properties stated for
    them.

    Data representation.
    - Python [str] is [string]; Python [int] is [Z].
    - Python [float] scores are idealised as rationals [Q] where only the
      keys, the membership and the order of entries are at stake; where the
      float operations themselves matter (range errors of the scorer), the
      scorer is taken over an arbitrary float implementation, [FloatOps].
    - A [dict] whose iteration order is observed ([purchase_history],
      [edge_to_count], the score map) is an insertion-ordered association
      list; the catalog, which is only ever looked up, is a [gmap].
    - [Counter] is a [gmap string Z] read with default 0; the [set] of
      categories is a [gset string]. *)

From Stdlib Require Import QArith Qabs.
From stdpp Require Import gmap strings list pretty sorting.

Local Open Scope Z_scope.

(** ** Insertion-ordered dictionaries *)

Module OrderedDict.

Section Ops.
Context {K V : Type} `{EqDecision K}.

(** [d.get(k)] *)
Fixpoint get (k : K) (d : list (K * V)) : option V :=
  match d with
  | [] => None
  | (k', v) :: d' => if decide (k = k') then Some v else get k d'
  end.

(** [d[k] = f(d.get(k))]: an existing key keeps its position, a new key
    goes to the end. *)
Fixpoint upd (k : K) (f : option V → V) (d : list (K * V)) : list (K * V) :=
  match d with
  | [] => [(k, f None)]
  | (k', v) :: d' =>
      if decide (k = k') then (k', f (Some v)) :: d'
      else (k', v) :: upd k f d'
  end.

Definition keys (d : list (K * V)) : list K := d.*1.

(** The invariant of a dictionary: no key occurs twice. *)
Definition wf (d : list (K * V)) : Prop := NoDup (keys d).
End Ops.

End OrderedDict.

Module OD := OrderedDict.

(** ** Data model *)

Record Product := mkProduct {
  product_id : string;
  title : string;
  brand : string;
  category : string
}.

Abbreviation Catalog := (gmap string Product).
Abbreviation PurchaseHistory := (list (string * list string)).
Abbreviation Graph := (list ((string * string) * Z)).
Abbreviation ScoreMap := (list (string * Q)).

(** ** Co-purchase graph builder *)

(** [edge_to_count[key] += 1] on a [defaultdict(int)]. *)
Definition incr (key : string * string) (g : Graph) : Graph :=
  OD.upd key (λ o, default 0 o + 1) g.

(** [list(dict.fromkeys(products))]: duplicates collapse to the first
    occurrence, order preserved. *)
Definition fromkeys (products : list string) : list string :=
  OD.keys (fold_left (λ d p, OD.upd p (λ _, tt) d) products []).

(** Body of the inner loop, [for j in range(i + 1, len(unique_products))]. *)
Definition pair_step (unique_products : list string) (i : nat)
    (g : Graph) (j : nat) : Graph :=
  match unique_products !! i, unique_products !! j with
  | Some a, Some b => incr (b, a) (incr (a, b) g)
  | _, _ => g
  end.

(** Body of the outer loop, [for i in range(len(unique_products))]. *)
Definition row_step (unique_products : list string) (g : Graph) (i : nat) : Graph :=
  fold_left (pair_step unique_products i)
    (seq (i + 1) (length unique_products - (i + 1))) g.

(** Body of [for user_id, products in purchase_history.items()]. *)
Definition user_step (g : Graph) (entry : string * list string) : Graph :=
  let unique_products := fromkeys entry.2 in
  fold_left (row_step unique_products) (seq 0 (length unique_products)) g.

Definition build_copurchase_graph (purchase_history : PurchaseHistory) : Graph :=
  fold_left user_step purchase_history [].

(** The demo history restricted to its first three users. *)
Definition history3 : PurchaseHistory :=
  [ ("u1", ["p1"; "p3"; "p4"]);
    ("u2", ["p1"; "p2"; "p6"]);
    ("u3", ["p3"; "p6"]) ]%string.

(** ** Candidate scorer *)

(** [enumerate(xs)] *)
Definition enumerate {A : Type} (xs : list A) : list (nat * A) :=
  imap (λ idx x, (idx, x)) xs.

(** [product_to_score[b] += x] on a [defaultdict(float)]. *)
Definition add_score (b : string) (x : Q) (m : ScoreMap) : ScoreMap :=
  OD.upd b (λ o, (default 0 o + x)%Q) m.

(** Body of [for (a, b), count in edge_to_count.items()]. *)
Definition edge_step (target_user_products : list string) (owned : string)
    (weight : Q) (m : ScoreMap) (edge : (string * string) * Z) : ScoreMap :=
  let '((a, b), count) := edge in
  if bool_decide (a = owned) && negb (bool_decide (b ∈ target_user_products))
  then add_score b (inject_Z count * weight)%Q m
  else m.

(** Body of [for idx, owned in enumerate(target_user_products)]. *)
Definition owned_step (target_user_products : list string) (edge_to_count : Graph)
    (decay : Q) (m : ScoreMap) (entry : nat * string) : ScoreMap :=
  let '(idx, owned) := entry in
  let weight := (decay ^ Z.of_nat idx)%Q in
  fold_left (edge_step target_user_products owned weight) edge_to_count m.

Definition score_candidates (target_user_products : list string)
    (edge_to_count : Graph) (decay : Q) : ScoreMap :=
  fold_left (owned_step target_user_products edge_to_count decay)
    (enumerate target_user_products) [].

(** The default [decay=0.85]. *)
Definition default_decay : Q := 85 # 100.

(** ** Stable descending sort

    [sorted(xs, key=..., reverse=True)] and [xs.sort(key=..., reverse=True)]:
    descending by key, elements with equal keys keep their input order.
    [le y x] decides [key y <= key x]. *)

Section Sorting.
Context {A : Type} (le : A → A → bool).

Fixpoint insert_desc (x : A) (l : list A) : list A :=
  match l with
  | [] => [x]
  | y :: l' => if le y x then x :: y :: l' else y :: insert_desc x l'
  end.

Definition sorted_desc (l : list A) : list A := foldr insert_desc [] l.
End Sorting.

Definition score_le (x y : string * Q) : bool := Qle_bool x.2 y.2.
Definition count_le (x y : string * Z) : bool := bool_decide (x.2 ≤ y.2).

(** ** Fairness re-ranker *)

Record RerankState := mkState {
  brand_counter : gmap string Z;
  chosen : list (string * Q);
  categories_present : gset string
}.

Definition init_state : RerankState :=
  {| brand_counter := ∅; chosen := []; categories_present := ∅ |}.

(** [brand_counter[b]] on a [Counter]: a missing key reads as 0. *)
Definition counter_get (c : gmap string Z) (b : string) : Z := default 0 (c !! b).

Definition len {A : Type} (l : list A) : Z := Z.of_nat (length l).

(** [(pid, score) in chosen] *)
Definition pair_eqb (x y : string * Q) : bool :=
  bool_decide (x.1 = y.1) && Qeq_bool x.2 y.2.

Definition contains (x : string * Q) (l : list (string * Q)) : bool :=
  existsb (pair_eqb x) l.

Section Rerank.
Variable products : Catalog.
Variables top_k max_per_brand min_category_diversity : Z.

(** Accepting a candidate: [chosen.append((pid, score))],
    [brand_counter[prod.brand] += 1], [categories_present.add(prod.category)]. *)
Definition accept (st : RerankState) (pid : string) (score : Q) (prod : Product)
    : RerankState :=
  {| brand_counter :=
       <[brand prod := counter_get (brand_counter st) (brand prod) + 1]>
         (brand_counter st);
     chosen := chosen st ++ [(pid, score)];
     categories_present := categories_present st ∪ {[category prod]} |}.

(** The first loop over [sorted_items]; reaching the [break] ends the
    recursion. *)
Fixpoint first_pass (items : list (string * Q)) (st : RerankState) : RerankState :=
  match items with
  | [] => st
  | (pid, score) :: rest =>
      match products !! pid with
      | None => first_pass rest st
      | Some prod =>
          if bool_decide (max_per_brand ≤ counter_get (brand_counter st) (brand prod))
          then first_pass rest st
          else
            let st' := accept st pid score prod in
            if bool_decide (len (chosen st') = top_k)
               && bool_decide (min_category_diversity
                               ≤ Z.of_nat (size (categories_present st')))
            then st'
            else first_pass rest st'
      end
  end.

(** The second loop, entered only when [len(chosen) < top_k]. *)
Fixpoint backfill (items : list (string * Q)) (chosen : list (string * Q))
    : list (string * Q) :=
  match items with
  | [] => chosen
  | (pid, score) :: rest =>
      if contains (pid, score) chosen then backfill rest chosen
      else
        match products !! pid with
        | None => backfill rest chosen
        | Some _ =>
            let chosen' := chosen ++ [(pid, score)] in
            if bool_decide (len chosen' = top_k) then chosen'
            else backfill rest chosen'
        end
  end.

Definition first_pass_selection (candidates : ScoreMap) : list (string * Q) :=
  chosen (first_pass (sorted_desc score_le candidates) init_state).

Definition fairness_rerank (candidates : ScoreMap) : list (string * Q) :=
  let sorted_items := sorted_desc score_le candidates in
  let chosen := first_pass_selection candidates in
  if bool_decide (len chosen < top_k) then backfill sorted_items chosen
  else chosen.
End Rerank.

(** ** Explainer *)

(** Body of [for owned in user_products]. *)
Definition contribution_step (product_id : string) (edge_to_count : Graph)
    (contributions : list (string * Z)) (owned : string) : list (string * Z) :=
  let count := default 0 (OD.get (owned, product_id) edge_to_count) in
  if bool_decide (0 < count) then contributions ++ [(owned, count)]
  else contributions.

(** [products.get(p).title if p in products else p] *)
Definition display_title (products : Catalog) (p : string) : string :=
  match products !! p with
  | Some prod => title prod
  | None => p
  end.

(** [f"{owned_title} ({cnt})"] *)
Definition render_part (products : Catalog) (c : string * Z) : string :=
  display_title products c.1 +:+ " (" +:+ pretty c.2 +:+ ")".

Definition because_text (prod_title : string) (top_parts : list string) : string :=
  "Recommended '" +:+ prod_title +:+ "' because you bought: "
    +:+ String.concat ", " top_parts.

Definition fallback_text (prod_title : string) : string :=
  "Recommended '" +:+ prod_title +:+ "' based on similar users' purchases.".

Definition explain_recommendation (product_id : string) (user_products : list string)
    (edge_to_count : Graph) (products : Catalog) : string :=
  let contributions :=
    fold_left (contribution_step product_id edge_to_count) user_products [] in
  let contributions := sorted_desc count_le contributions in
  let top_parts :=
    fold_left (λ parts c, parts ++ [render_part products c])
      (take 3 contributions) [] in
  let prod_title := display_title products product_id in
  match top_parts with
  | [] => fallback_text prod_title
  | _ :: _ => because_text prod_title top_parts
  end.

(** ** Feedback prompt

    [collect_feedback] talks to the console. The console is modelled by the
    lines still to be read from standard input and the trace of what has
    been written; [input] at the end of the input raises [EOFError]. A
    character is a code point below 256, so the strings read are those
    without code points from 256 on. *)

(** [c.isspace()], which is what [str.strip()] removes. *)
Definition is_space (c : Ascii.ascii) : bool :=
  let n := Ascii.nat_of_ascii c in
  ((9 <=? n) && (n <=? 13) || (28 <=? n) && (n <=? 32) || (n =? 133) || (n =? 160))%nat.

Fixpoint lstrip (s : string) : string :=
  match s with
  | EmptyString => EmptyString
  | String c s' => if is_space c then lstrip s' else s
  end.

Definition rstrip (s : string) : string := String.rev (lstrip (String.rev s)).

(** [s.strip()] *)
Definition strip (s : string) : string := rstrip (lstrip s).

(** [c.lower()]: A-Z and the capital letters of Latin-1 move up by 32. *)
Definition lower_char (c : Ascii.ascii) : Ascii.ascii :=
  let n := Ascii.nat_of_ascii c in
  if ((65 <=? n) && (n <=? 90) || (192 <=? n) && (n <=? 214)
      || (216 <=? n) && (n <=? 222))%nat
  then Ascii.ascii_of_nat (n + 32)
  else c.

(** [s.lower()] *)
Fixpoint lower (s : string) : string :=
  match s with
  | EmptyString => EmptyString
  | String c s' => String (lower_char c) (lower s')
  end.

Inductive io_event :=
| Prompted (text : string)   (* written by [input(text)] *)
| Printed (text : string).   (* written by [print(text)] *)

Inductive io_result (A : Type) :=
| Answered (a : A)
| EOFError.
Arguments Answered {A} a.
Arguments EOFError {A}.

Definition feedback_prompt : string := "Was this recommendation helpful? (y/n): ".
Definition feedback_retry : string := "Please enter 'y' or 'n'.".

(** The [while True] loop, by recursion on the lines still to be read. The
    result comes with the lines left unread and the trace written. *)
Fixpoint collect_feedback (stdin : list string) (stdout : list io_event)
    : io_result string * list string * list io_event :=
  match stdin with
  | [] => (EOFError, [], stdout ++ [Prompted feedback_prompt])
  | line :: rest =>
      let stdout := stdout ++ [Prompted feedback_prompt] in
      let resp := lower (strip line) in
      if bool_decide (resp ∈ ["y"; "yes"]%string) then
        (Answered "positive"%string, rest, stdout)
      else if bool_decide (resp ∈ ["n"; "no"]%string) then
        (Answered "negative"%string, rest, stdout)
      else collect_feedback rest (stdout ++ [Printed feedback_retry])
  end.

(** ** The pipeline *)

Definition recommend_for_user (user_id : string) (purchase_history : PurchaseHistory)
    (products : Catalog) (top_k : Z) : list (string * Q * string) :=
  let user_products := default [] (OD.get user_id purchase_history) in
  let edge_to_count := build_copurchase_graph purchase_history in
  let raw_scores := score_candidates user_products edge_to_count default_decay in
  let reranked := fairness_rerank products top_k 2 2 raw_scores in
  fold_left
    (λ results '(pid, score),
       results ++ [(pid, score,
                    explain_recommendation pid user_products edge_to_count products)])
    reranked [].

(** ** Call outcomes

    No function of the pipeline contains a [raise]. The re-ranker and the
    explainer perform no operation that can fail on arguments of the
    annotated types, so their calls return normally. The scorer computes on
    floats, where [decay ** idx] and [count * weight] raise [OverflowError]
    when out of range: section "The scorer over floats" below models that. *)

Inductive error_kind := InvalidConfiguration | OverflowError.

Inductive outcome (A : Type) :=
| Returned (a : A)
| Raised (e : error_kind).
Arguments Returned {A} a.
Arguments Raised {A} e.

Global Instance outcome_ret : MRet outcome := λ A a, Returned a.

Global Instance outcome_bind : MBind outcome := λ A B f x,
  match x with
  | Returned a => f a
  | Raised e => Raised e
  end.

(** A [for] loop whose body may raise: the first exception ends it. *)
Fixpoint fold_outcome {A B : Type} (f : A → B → outcome A) (l : list B) (a : A)
    : outcome A :=
  match l with
  | [] => Returned a
  | x :: l' => a' ← f a x; fold_outcome f l' a'
  end.

(** A float operation that either gives a value or is out of range. *)
Definition in_range {A : Type} (o : option A) : outcome A :=
  match o with
  | Some a => Returned a
  | None => Raised OverflowError
  end.

(** ** The scorer over floats

    The float operations of [score_candidates], taken as parameters so that
    nothing is assumed about rounding or about the C library's [pow]:
    - [fadd x y] is [x + y], which never raises;
    - [fpow x n] is [x ** n] for an [int] [n >= 0], [None] when Python
      raises [OverflowError];
    - [fmul_int c x] is [c * x] for an [int] [c], [None] when converting
      [c] to a float raises [OverflowError];
    - [flt] and [fle] are [<] and [<=]; [fzero] is [0.0], the default of
      [defaultdict(float)], and [fone] is [1.0]. *)

Record FloatOps := mkFloatOps {
  float : Type;
  fzero : float;
  fone : float;
  fadd : float → float → float;
  fpow : float → nat → option float;
  fmul_int : Z → float → option float;
  flt : float → float → bool;
  fle : float → float → bool
}.


Module Fp.
Section Scorer.
Variable F : FloatOps.

(** [product_to_score[b] += x] on a [defaultdict(float)]. *)
Definition add_score (b : string) (x : float F) (m : list (string * float F))
    : list (string * float F) :=
  OD.upd b (λ o, fadd F (default (fzero F) o) x) m.

(** Body of [for (a, b), count in edge_to_count.items()]. *)
Definition edge_step (target_user_products : list string) (owned : string)
    (weight : float F) (m : list (string * float F))
    (edge : (string * string) * Z) : outcome (list (string * float F)) :=
  let '((a, b), count) := edge in
  if bool_decide (a = owned) && negb (bool_decide (b ∈ target_user_products))
  then x ← in_range (fmul_int F count weight); mret (add_score b x m)
  else mret m.

(** Body of [for idx, owned in enumerate(target_user_products)]. *)
Definition owned_step (target_user_products : list string) (edge_to_count : Graph)
    (decay : float F) (m : list (string * float F)) (entry : nat * string)
    : outcome (list (string * float F)) :=
  let '(idx, owned) := entry in
  weight ← in_range (fpow F decay idx);
  fold_outcome (edge_step target_user_products owned weight) edge_to_count m.

Definition score_candidates (target_user_products : list string)
    (edge_to_count : Graph) (decay : float F) : outcome (list (string * float F)) :=
  fold_outcome (owned_step target_user_products edge_to_count decay)
    (enumerate target_user_products) [].
End Scorer.
End Fp.

(** The exact rationals as floats: nothing is rounded and nothing is out of
    range. This is the arithmetic of [score_candidates] above. *)
Definition Qexact : FloatOps :=
  {| float := Q;
     fzero := 0%Q;
     fone := 1%Q;
     fadd := Qplus;
     fpow := λ x n, Some (x ^ Z.of_nat n)%Q;
     fmul_int := λ c x, Some (inject_Z c * x)%Q;
     flt := λ x y, negb (Qle_bool y x);
     fle := Qle_bool |}.

(** The largest finite binary64 value, [(2 - 2 ** -52) * 2 ** 1023]. *)
Definition binary64_max : Q := inject_Z (2 ^ 1024 - 2 ^ 971).

(** The rationals with the range of binary64, for running examples: a
    power or a converted [int] beyond [binary64_max] is out of range.
    Nothing is rounded, so the values are Python's only where binary64
    represents them exactly. *)
Definition Qranged : FloatOps :=
  {| float := Q;
     fzero := 0%Q;
     fone := 1%Q;
     fadd := Qplus;
     fpow := λ x n,
       let r := (x ^ Z.of_nat n)%Q in
       if Qle_bool (Qabs r) binary64_max then Some r else None;
     fmul_int := λ c x,
       if Qle_bool (Qabs (inject_Z c)) binary64_max
       then Some (inject_Z c * x)%Q else None;
     flt := λ x y, negb (Qle_bool y x);
     fle := Qle_bool |}.

Definition call_fairness_rerank (candidates : ScoreMap) (products : Catalog)
    (top_k max_per_brand min_category_diversity : Z) : outcome (list (string * Q)) :=
  Returned
    (fairness_rerank products top_k max_per_brand min_category_diversity candidates).

(** With the default decay 0.85 no power is out of range, and a count is at
    most the number of users, so the scorer called here does not raise. *)
Definition call_recommend_for_user (user_id : string)
    (purchase_history : PurchaseHistory) (products : Catalog) (top_k : Z)
    : outcome (list (string * Q * string)) :=
  Returned (recommend_for_user user_id purchase_history products top_k).

(** ** Sample data *)

Definition catalog : Catalog :=
  list_to_map
    [ ("p1", mkProduct "p1" "Eco Water Bottle" "AquaCo" "Outdoors");
      ("p2", mkProduct "p2" "Insulated Mug" "AquaCo" "Kitchen");
      ("p3", mkProduct "p3" "Trail Backpack" "HikeMax" "Outdoors");
      ("p4", mkProduct "p4" "Yoga Mat" "ZenFit" "Fitness");
      ("p5", mkProduct "p5" "Running Shoes" "ZenFit" "Fitness");
      ("p6", mkProduct "p6" "Camping Stove" "CampX" "Outdoors");
      ("p7", mkProduct "p7" "Chef Knife" "CookPro" "Kitchen");
      ("p8", mkProduct "p8" "Coffee Grinder" "CookPro" "Kitchen") ]%string.

Definition history : PurchaseHistory :=
  [ ("u1", ["p1"; "p3"; "p4"]);
    ("u2", ["p1"; "p2"; "p6"]);
    ("u3", ["p3"; "p6"]);
    ("u4", ["p2"; "p7"; "p8"]);
    ("u5", ["p1"; "p4"; "p5"]) ]%string.

(** * Vocabulary of the properties *)

(** ** Graphs *)

(** An edge and its reverse are both absent or carry the same count. *)
Definition graph_symmetric (g : Graph) : Prop :=
  ∀ a b, OD.get (a, b) g = OD.get (b, a) g.

(** No self-pair is a key. *)
Definition graph_irreflexive (g : Graph) : Prop :=
  ∀ a, OD.get (a, a) g = None.

(** The pairs the two index loops visit, by recursion on the list: every
    element is paired with each element after it. *)
Fixpoint add_pairs (l : list string) (g : Graph) : Graph :=
  match l with
  | [] => g
  | a :: rest =>
      add_pairs rest (fold_left (λ g b, incr (b, a) (incr (a, b) g)) rest g)
  end.

(** [edge_to_count.get(key, 0)] *)
Definition edge_count (g : Graph) (key : string * string) : Z :=
  default 0 (OD.get key g).

(** 1 if the proposition holds, 0 otherwise. *)
Definition indicator (P : Prop) `{Decision P} : Z := if decide P then 1 else 0.

(** The users whose purchases include both [a] and [b]. *)
Definition buyers_of_both (a b : string) (purchase_history : PurchaseHistory)
    : PurchaseHistory :=
  filter (λ entry, a ∈ entry.2 ∧ b ∈ entry.2) purchase_history.

(** ** Sorting *)

(** [before le x y]: [x] may stand before [y] in descending order. *)
Definition before {A : Type} (le : A → A → bool) (x y : A) : Prop := le y x = true.

(** ** Re-ranking *)

(** The brand the catalog gives a product id, if it knows the id. *)
Definition brand_of (products : Catalog) (pid : string) : option string :=
  brand <$> products !! pid.

(** How many entries of [l] the catalog attributes to brand [b]. *)
Definition brand_occurrences (products : Catalog) (b : string)
    (l : list (string * Q)) : Z :=
  len (filter (λ x, brand_of products x.1 = Some b) l).

(** The candidates the catalog knows. *)
Definition catalog_present (products : Catalog) (l : list (string * Q))
    : list (string * Q) :=
  filter (λ x, is_Some (products !! x.1)) l.

(** The counter agrees with the brands of what has been chosen. *)
Definition counter_ok (products : Catalog) (st : RerankState) : Prop :=
  ∀ b, counter_get (brand_counter st) b = brand_occurrences products b (chosen st).

(** The candidates kept when only the brand cap applies: walking [items] in
    order, a catalog product is kept unless [max_per_brand] kept entries
    already have its brand. *)
Fixpoint brand_capped (products : Catalog) (max_per_brand : Z)
    (items kept : list (string * Q)) : list (string * Q) :=
  match items with
  | [] => kept
  | (pid, score) :: rest =>
      match products !! pid with
      | None => brand_capped products max_per_brand rest kept
      | Some prod =>
          if bool_decide (max_per_brand ≤ brand_occurrences products (brand prod) kept)
          then brand_capped products max_per_brand rest kept
          else brand_capped products max_per_brand rest (kept ++ [(pid, score)])
      end
  end.

(** ** Explanations *)

(** [edge_to_count.get((owned, product_id), 0)] *)
Definition copurchase_count (edge_to_count : Graph) (owned product_id : string) : Z :=
  default 0 (OD.get (owned, product_id) edge_to_count).

(** The owned products with a positive count, each with its count, in the
    order of the owned-products sequence. *)
Definition contributions (product_id : string) (user_products : list string)
    (edge_to_count : Graph) : list (string * Z) :=
  (λ owned, (owned, copurchase_count edge_to_count owned product_id))
    <$> filter (λ owned, 0 < copurchase_count edge_to_count owned product_id)
          user_products.

(** [top] is a choice of the three largest entries of [all] (all of them
    if there are at most three), listed by descending count. *)
Definition top3_of (top all : list (string * Z)) : Prop :=
  ∃ rest,
    top ++ rest ≡ₚ all
    ∧ (length top ≤ 3)%nat
    ∧ (rest = [] ∨ length top = 3%nat)
    ∧ StronglySorted (λ x y, y.2 ≤ x.2) top
    ∧ (∀ x y, x ∈ top → y ∈ rest → y.2 ≤ x.2).

(** A part rendered as the owned product's display name, which is the
    catalog title, or the product id itself when the catalog lacks the
    product, followed by the count in parentheses. *)
Definition named_part (products : Catalog) (c : string * Z) (part : string) : Prop :=
  part = display_title products c.1 +:+ " (" +:+ pretty c.2 +:+ ")".

(** A part rendered as the catalog title of the owned product followed by
    the count in parentheses. *)
Definition titled_part (products : Catalog) (c : string * Z) (part : string) : Prop :=
  ∃ prod, products !! c.1 = Some prod
          ∧ part = title prod +:+ " (" +:+ pretty c.2 +:+ ")".

(** ** Feedback *)

(** The responses [collect_feedback] accepts, after stripping and
    lower-casing. *)
Definition says_yes (line : string) : Prop := lower (strip line) ∈ ["y"; "yes"]%string.
Definition says_no (line : string) : Prop := lower (strip line) ∈ ["n"; "no"]%string.

(** What the console shows for the rejected lines: each one is prompted for
    and answered by the retry message. *)
Definition retries (rejected : list string) : list io_event :=
  rejected ≫= λ _, [Prompted feedback_prompt; Printed feedback_retry].

(** ** More sample data *)

(** Three candidates of which the two best are AquaCo products. *)
Definition aqua_candidates : ScoreMap :=
  [("p1", 3%Q); ("p2", 2%Q); ("p3", 1%Q)]%string.

(** Three candidates of three brands, all in the category Outdoors. *)
Definition outdoors_candidates : ScoreMap :=
  [("p1", 3%Q); ("p3", 2%Q); ("p6", 1%Q)]%string.

(** A history in which u1 owns p1 and u2 owns p1, p3 and p6. *)
Definition outdoors_history : PurchaseHistory :=
  [ ("u1", ["p1"]); ("u2", ["p1"; "p3"; "p6"]) ]%string.

(** A graph that mentions a product, p9, that the catalog does not have. *)
Definition stale_graph : Graph := [(("p9", "p2")%string, 1)].

(** * Properties *)

(** ** Loops as folds *)

Lemma fold_left_inv {A B : Type} (P : A → Prop) (f : A → B → A)
    (l : list B) (a : A) :
  P a → (∀ a x, x ∈ l → P a → P (f a x)) → P (fold_left f l a).
Proof.
  revert a. induction l as [|x l IH]; intros a Ha Hstep; simpl; [done|].
  apply IH.
  - apply Hstep; [left | done].
  - intros a' y Hy. apply Hstep. by right.
Qed.

Lemma len_app {A : Type} (l k : list A) : len (l ++ k) = len l + len k.
Proof. unfold len. rewrite length_app. lia. Qed.

Lemma len_nonneg {A : Type} (l : list A) : 0 ≤ len l.
Proof. unfold len. lia. Qed.

(** ** Ordered dictionaries *)

Section OrderedDictFacts.
Context {K V : Type} `{EqDecision K}.
Implicit Types (d : list (K * V)) (k : K) (f : option V → V).

Lemma get_upd k k' f d :
  OD.get k' (OD.upd k f d) =
    if decide (k' = k) then Some (f (OD.get k d)) else OD.get k' d.
Proof.
  induction d as [|[k0 v0] d IH]; simpl.
  - by destruct (decide (k' = k)).
  - destruct (decide (k = k0)) as [->|Hne]; simpl.
    + by destruct (decide (k' = k0)).
    + destruct (decide (k' = k0)) as [->|Hne'].
      * by rewrite decide_False.
      * apply IH.
Qed.

Lemma get_None k d : OD.get k d = None ↔ k ∉ OD.keys d.
Proof.
  unfold OD.keys. induction d as [|[k0 v0] d IH]; simpl.
  - split; [intros _; apply not_elem_of_nil | done].
  - rewrite not_elem_of_cons. destruct (decide (k = k0)) as [->|Hne].
    + split; [done | by intros [? _]].
    + rewrite IH. split; [done | by intros [_ ?]].
Qed.

Lemma get_Some_elem k v d : OD.get k d = Some v → (k, v) ∈ d.
Proof.
  induction d as [|[k0 v0] d IH]; simpl; [done|].
  destruct (decide (k = k0)) as [->|Hne].
  - intros [= ->]. left.
  - intros H'. right. by apply IH.
Qed.

Lemma elem_get_Some k v d : OD.wf d → (k, v) ∈ d → OD.get k d = Some v.
Proof.
  unfold OD.wf, OD.keys. induction d as [|[k0 v0] d IH]; simpl.
  - intros _ H'. by apply elem_of_nil in H'.
  - rewrite NoDup_cons. intros [Hk0 Hnd] [[= -> ->]|Hin]%elem_of_cons.
    + by rewrite decide_True.
    + rewrite decide_False; [by apply IH|].
      intros ->. apply Hk0. by apply (list_elem_of_fmap_2 fst) in Hin.
Qed.

Lemma keys_upd_in k f d : k ∈ OD.keys d → OD.keys (OD.upd k f d) = OD.keys d.
Proof.
  unfold OD.keys. induction d as [|[k0 v0] d IH]; intros Hin.
  - by apply elem_of_nil in Hin.
  - cbn [OD.upd]. destruct (decide (k = k0)) as [->|Hne]; [done|].
    rewrite !fmap_cons. f_equal. apply IH.
    rewrite fmap_cons in Hin. apply elem_of_cons in Hin as [?|?]; done.
Qed.

Lemma keys_upd_notin k f d :
  k ∉ OD.keys d → OD.keys (OD.upd k f d) = OD.keys d ++ [k].
Proof.
  unfold OD.keys. induction d as [|[k0 v0] d IH]; intros Hnin; [done|].
  rewrite fmap_cons in Hnin. apply not_elem_of_cons in Hnin as [Hne Hnin].
  cbn [OD.upd]. rewrite decide_False by done.
  rewrite !fmap_cons. cbn [fst app]. f_equal. by apply IH.
Qed.

Lemma elem_keys_upd k k' f d :
  k' ∈ OD.keys (OD.upd k f d) ↔ k' = k ∨ k' ∈ OD.keys d.
Proof.
  destruct (decide (k ∈ OD.keys d)) as [Hin|Hnin].
  - rewrite keys_upd_in by done. split; [by right | by intros [->|?]].
  - rewrite keys_upd_notin by done.
    rewrite elem_of_app, list_elem_of_singleton. tauto.
Qed.

Lemma wf_upd k f d : OD.wf d → OD.wf (OD.upd k f d).
Proof.
  unfold OD.wf. destruct (decide (k ∈ OD.keys d)) as [Hin|Hnin].
  - by rewrite keys_upd_in.
  - rewrite keys_upd_notin by done. intros Hnd.
    apply NoDup_app. split_and!; [done | | apply NoDup_singleton].
    intros x Hx ->%list_elem_of_singleton. done.
Qed.
End OrderedDictFacts.

(** ** Co-purchase graph builder *)

Lemma get_incr (key key' : string * string) (g : Graph) :
  OD.get key' (incr key g) =
    if decide (key' = key) then Some (default 0 (OD.get key g) + 1) else OD.get key' g.
Proof. unfold incr. by rewrite get_upd. Qed.

Lemma wf_incr key (g : Graph) : OD.wf g → OD.wf (incr key g).
Proof. apply wf_upd. Qed.

Lemma fromkeys_NoDup (products : list string) : NoDup (fromkeys products).
Proof.
  unfold fromkeys.
  apply (fold_left_inv (λ d : list (string * ()), NoDup (OD.keys d))).
  - apply NoDup_nil_2.
  - intros d p _. apply wf_upd.
Qed.

Lemma fromkeys_elem (products : list string) (p : string) :
  p ∈ fromkeys products ↔ p ∈ products.
Proof.
  unfold fromkeys.
  enough (∀ d : list (string * ()),
    p ∈ OD.keys (fold_left (λ d p, OD.upd p (λ _, ()) d) products d)
    ↔ p ∈ OD.keys d ∨ p ∈ products) as H.
  { rewrite H. unfold OD.keys. simpl. rewrite elem_of_nil. tauto. }
  induction products as [|q products IH]; intros d; simpl.
  - rewrite elem_of_nil. tauto.
  - rewrite IH, elem_keys_upd, elem_of_cons. tauto.
Qed.

Lemma incr_pair_symmetric (a b : string) (g : Graph) :
  graph_symmetric g → graph_symmetric (incr (b, a) (incr (a, b) g)).
Proof.
  intros Hsym x y. rewrite !get_incr.
  repeat case_decide; simplify_eq; rewrite ?(Hsym a b); done.
Qed.

Lemma incr_pair_irreflexive (a b : string) (g : Graph) :
  a ≠ b → graph_irreflexive g → graph_irreflexive (incr (b, a) (incr (a, b) g)).
Proof.
  intros Hne Hirr x. rewrite !get_incr.
  repeat case_decide; simplify_eq. apply Hirr.
Qed.

Lemma pair_step_invariant (l : list string) (i j : nat) (g : Graph) :
  NoDup l → i ≠ j →
  graph_symmetric g ∧ graph_irreflexive g →
  graph_symmetric (pair_step l i g j) ∧ graph_irreflexive (pair_step l i g j).
Proof.
  intros Hnd Hij [Hsym Hirr]. unfold pair_step.
  destruct (l !! i) as [a|] eqn:Ha; [|done].
  destruct (l !! j) as [b|] eqn:Hb; [|done].
  split.
  - by apply incr_pair_symmetric.
  - apply incr_pair_irreflexive; [|done].
    intros ->. apply Hij. by eapply NoDup_lookup.
Qed.

Lemma user_step_invariant (g : Graph) (entry : string * list string) :
  graph_symmetric g ∧ graph_irreflexive g →
  graph_symmetric (user_step g entry) ∧ graph_irreflexive (user_step g entry).
Proof.
  intros Hg. unfold user_step.
  apply (fold_left_inv (λ g, graph_symmetric g ∧ graph_irreflexive g)); [done|].
  intros g' i _ Hg'. unfold row_step.
  apply (fold_left_inv (λ g, graph_symmetric g ∧ graph_irreflexive g)); [done|].
  intros g'' j Hj Hg''. apply pair_step_invariant; [apply fromkeys_NoDup | | done].
  apply elem_of_seq in Hj. lia.
Qed.

Lemma build_copurchase_graph_wf (purchase_history : PurchaseHistory) :
  OD.wf (build_copurchase_graph purchase_history).
Proof.
  unfold build_copurchase_graph.
  apply (fold_left_inv (λ g : Graph, OD.wf g)); [apply NoDup_nil_2|].
  intros g entry _ Hg. unfold user_step.
  apply (fold_left_inv (λ g : Graph, OD.wf g)); [done|].
  intros g' i _ Hg'. unfold row_step.
  apply (fold_left_inv (λ g : Graph, OD.wf g)); [done|].
  intros g'' j _ Hg''. unfold pair_step.
  destruct (_ !! i); [|done]. destruct (_ !! j); [|done].
  by do 2 apply wf_incr.
Qed.

(** The index loops of one user visit each pair of positions [i < j]
    once. *)
Lemma pair_loop_suffix (p rest : list string) (i : nat) (a : string) (g : Graph) :
  (p ++ rest) !! i = Some a →
  fold_left (pair_step (p ++ rest) i) (seq (length p) (length rest)) g
  = fold_left (λ g b, incr (b, a) (incr (a, b) g)) rest g.
Proof.
  intros Hi. revert p g Hi. induction rest as [|b rest IH]; intros p g Hi; [done|].
  cbn [length seq fold_left]. unfold pair_step at 2.
  rewrite Hi, list_lookup_middle by done.
  specialize (IH (p ++ [b])). rewrite <- app_assoc, length_app in IH. cbn in IH.
  rewrite Nat.add_1_r in IH. by apply IH.
Qed.

Lemma row_loop_suffix (p l : list string) (g : Graph) :
  fold_left (row_step (p ++ l)) (seq (length p) (length l)) g = add_pairs l g.
Proof.
  revert p g. induction l as [|a rest IH]; intros p g; [done|].
  cbn [length seq fold_left add_pairs]. unfold row_step at 2.
  replace (length (p ++ a :: rest) - (length p + 1))%nat with (length rest)
    by (rewrite length_app; cbn; lia).
  pose proof (pair_loop_suffix (p ++ [a]) rest (length p) a g) as Hrow.
  rewrite <- app_assoc, length_app in Hrow. cbn in Hrow.
  rewrite Hrow by (by apply list_lookup_middle).
  specialize (IH (p ++ [a])). rewrite <- app_assoc, length_app in IH. cbn in IH.
  rewrite Nat.add_1_r in IH. apply IH.
Qed.

Lemma user_step_pairs (g : Graph) (entry : string * list string) :
  user_step g entry = add_pairs (fromkeys entry.2) g.
Proof. unfold user_step. apply (row_loop_suffix []). Qed.

(** *** Counts are numbers of common buyers *)

Lemma indicator_iff (P Q : Prop) `{Decision P, Decision Q} :
  (P ↔ Q) → indicator P = indicator Q.
Proof. intros HPQ. unfold indicator. repeat case_decide; tauto. Qed.

Lemma indicator_false (P : Prop) `{Decision P} : ¬ P → indicator P = 0.
Proof. intros HP. unfold indicator. by case_decide. Qed.

Lemma indicator_or (P Q : Prop) `{Decision P, Decision Q} :
  ¬ (P ∧ Q) → indicator (P ∨ Q) = indicator P + indicator Q.
Proof. intros HPQ. unfold indicator. repeat case_decide; tauto || lia. Qed.

Lemma edge_count_incr (key key' : string * string) (g : Graph) :
  edge_count (incr key g) key' = edge_count g key' + indicator (key' = key).
Proof.
  unfold edge_count, indicator. rewrite get_incr.
  case_decide as Hk; [by subst | lia].
Qed.

Lemma edge_count_pair_fold (x : string) (rest : list string) (g : Graph)
    (a b : string) :
  NoDup rest →
  edge_count (fold_left (λ g y, incr (y, x) (incr (x, y) g)) rest g) (a, b)
  = edge_count g (a, b)
    + indicator (a = x ∧ b ∈ rest) + indicator (b = x ∧ a ∈ rest).
Proof.
  intros Hnd. revert g. induction Hnd as [|y rest Hy Hnd IH]; intros g.
  - cbn [fold_left].
    rewrite !indicator_false; [lia | |]; rewrite elem_of_nil; tauto.
  - cbn [fold_left]. rewrite IH, !edge_count_incr.
    rewrite (indicator_iff (a = x ∧ b ∈ y :: rest)
               ((a, b) = (x, y) ∨ (a = x ∧ b ∈ rest))).
    2: { rewrite elem_of_cons. split.
         - intros [-> [->|?]]; [by left | by right].
         - intros [[= -> ->]|[-> ?]]; tauto. }
    rewrite (indicator_iff (b = x ∧ a ∈ y :: rest)
               ((a, b) = (y, x) ∨ (b = x ∧ a ∈ rest))).
    2: { rewrite elem_of_cons. split.
         - intros [-> [->|?]]; [by left | by right].
         - intros [[= -> ->]|[-> ?]]; tauto. }
    rewrite !indicator_or; [lia | |].
    + intros [[= -> ->] [_ ?]]. done.
    + intros [[= -> ->] [_ ?]]. done.
Qed.

Lemma edge_count_add_pairs (l : list string) (g : Graph) (a b : string) :
  NoDup l → a ≠ b →
  edge_count (add_pairs l g) (a, b)
  = edge_count g (a, b) + indicator (a ∈ l ∧ b ∈ l).
Proof.
  intros Hnd Hab. revert g. induction Hnd as [|x rest Hx Hnd IH]; intros g.
  - cbn [add_pairs]. rewrite indicator_false; [lia|].
    rewrite elem_of_nil. tauto.
  - cbn [add_pairs]. rewrite IH, edge_count_pair_fold by done.
    rewrite (indicator_iff (a ∈ x :: rest ∧ b ∈ x :: rest)
               ((a = x ∧ b ∈ rest) ∨ (b = x ∧ a ∈ rest) ∨ (a ∈ rest ∧ b ∈ rest))).
    2: { rewrite !elem_of_cons. split.
         - intros [[->|?] [->|?]]; tauto.
         - intros [[-> ?]|[[-> ?]|[? ?]]]; tauto. }
    rewrite !indicator_or; [lia | |].
    + intros [[-> ?] [? ?]]. done.
    + intros [[-> ?] [[-> ?]|[? ?]]]; done.
Qed.

(** For two different products, the count of the edge between them is the
    number of users who bought both. *)
Lemma build_copurchase_graph_count (purchase_history : PurchaseHistory)
    (a b : string) :
  a ≠ b →
  edge_count (build_copurchase_graph purchase_history) (a, b)
  = len (buyers_of_both a b purchase_history).
Proof.
  intros Hab. unfold build_copurchase_graph.
  enough (∀ g, edge_count (fold_left user_step purchase_history g) (a, b)
               = edge_count g (a, b) + len (buyers_of_both a b purchase_history)) as H.
  { rewrite H. done. }
  induction purchase_history as [|entry ph IH]; intros g.
  - change (edge_count g (a, b) = edge_count g (a, b) + 0). lia.
  - cbn [fold_left]. rewrite IH, user_step_pairs.
    rewrite edge_count_add_pairs by (apply fromkeys_NoDup || done).
    rewrite (indicator_iff _ (a ∈ entry.2 ∧ b ∈ entry.2))
      by (by rewrite !fromkeys_elem).
    unfold buyers_of_both. rewrite filter_cons. unfold indicator.
    case_decide; [|lia]. unfold len. rewrite length_cons. lia.
Qed.

(** C5. For every purchase history the graph built by
    [build_copurchase_graph] is symmetric: the entries for (A,B) and (B,A)
    are either both absent or both present with the same count; and no
    self-pair (A,A) is a key of the graph. *)
Theorem build_copurchase_graph_symmetric (purchase_history : PurchaseHistory) :
  (∀ a b, OD.get (a, b) (build_copurchase_graph purchase_history)
          = OD.get (b, a) (build_copurchase_graph purchase_history))
  ∧ (∀ a, (a, a) ∉ OD.keys (build_copurchase_graph purchase_history)).
Proof.
  enough (graph_symmetric (build_copurchase_graph purchase_history)
          ∧ graph_irreflexive (build_copurchase_graph purchase_history)) as [Hs Hi].
  { split; [exact Hs|]. intros a. apply get_None, Hi. }
  unfold build_copurchase_graph.
  apply (fold_left_inv (λ g, graph_symmetric g ∧ graph_irreflexive g)).
  - split; intros ?; reflexivity.
  - intros g entry _. apply user_step_invariant.
Qed.

(** C2, as the code computes it. On the three-user history the graph has
    edge (p1,p3) with count 1 and edge (p3,p6) with count 1: only u3 owns
    both p3 and p6. *)
Theorem history3_edge_counts :
  OD.get ("p1", "p3")%string (build_copurchase_graph history3) = Some 1
  ∧ OD.get ("p3", "p6")%string (build_copurchase_graph history3) = Some 1.
Proof. split; vm_compute; reflexivity. Qed.

(** C2, as stated, fails: edge (p3,p6) does not have count 2. *)
Lemma history3_edge_counts_counterexample :
  ¬ (OD.get ("p1", "p3")%string (build_copurchase_graph history3) = Some 1
     ∧ OD.get ("p3", "p6")%string (build_copurchase_graph history3) = Some 2).
Proof. intros [_ H]. vm_compute in H. discriminate H. Qed.

(** ** Candidate scorer *)

Lemma elem_keys_add_score (b b' : string) (x : Q) (m : ScoreMap) :
  b' ∈ OD.keys (add_score b x m) ↔ b' = b ∨ b' ∈ OD.keys m.
Proof. apply elem_keys_upd. Qed.

Lemma elem_keys_edge_step (tp : list string) (owned : string) (weight : Q)
    (m : ScoreMap) (a b' : string) (c : Z) (b : string) :
  b ∈ OD.keys (edge_step tp owned weight m ((a, b'), c))
  ↔ b ∈ OD.keys m ∨ (a = owned ∧ (b' ∉ tp) ∧ b = b').
Proof.
  unfold edge_step.
  destruct (decide (a = owned)) as [Ha|Ha]; destruct (decide (b' ∈ tp)) as [Hb|Hb].
  - rewrite bool_decide_eq_true_2, (bool_decide_eq_true_2 (b' ∈ tp)) by done. simpl.
    split; [by left | intros [?|(_ & ? & _)]; done].
  - rewrite bool_decide_eq_true_2, (bool_decide_eq_false_2 (b' ∈ tp)) by done. simpl.
    rewrite elem_keys_add_score. split.
    + intros [->|?]; [by right | by left].
    + intros [?|(_ & _ & ->)]; [by right | by left].
  - rewrite bool_decide_eq_false_2 by done. simpl.
    split; [by left | intros [?|(? & _)]; done].
  - rewrite bool_decide_eq_false_2 by done. simpl.
    split; [by left | intros [?|(? & _)]; done].
Qed.

Lemma elem_keys_edge_fold (tp : list string) (owned : string) (weight : Q)
    (g : Graph) (m : ScoreMap) (b : string) :
  b ∈ OD.keys (fold_left (edge_step tp owned weight) g m)
  ↔ b ∈ OD.keys m ∨ ((b ∉ tp) ∧ ∃ c, ((owned, b), c) ∈ g).
Proof.
  revert m. induction g as [|[[a b'] c] g IH]; intros m; cbn [fold_left].
  - split; [by left|]. intros [?|[_ [c Hc]]]; [done|]. by apply elem_of_nil in Hc.
  - rewrite IH, elem_keys_edge_step. clear IH. split.
    + intros [[H|(-> & Hn & ->)]|[Hn [c' Hc']]].
      * by left.
      * right. split; [done|]. exists c. left.
      * right. split; [done|]. exists c'. by right.
    + intros [H|[Hn [c' Hc']]]; [by do 2 left|].
      apply elem_of_cons in Hc' as [Heq|Hc'].
      * injection Heq as <- <- <-. left. by right.
      * right. split; [done|]. by exists c'.
Qed.

Lemma elem_keys_score_candidates (owned : list string) (g : Graph) (decay : Q)
    (b : string) :
  b ∈ OD.keys (score_candidates owned g decay)
  ↔ (b ∉ owned) ∧ ∃ a c, a ∈ owned ∧ ((a, b), c) ∈ g.
Proof.
  unfold score_candidates.
  enough (∀ (es : list (nat * string)) (m : ScoreMap),
    b ∈ OD.keys (fold_left (owned_step owned g decay) es m)
    ↔ b ∈ OD.keys m
      ∨ ((b ∉ owned) ∧ ∃ idx a c, (idx, a) ∈ es ∧ ((a, b), c) ∈ g)) as H.
  { rewrite H. unfold OD.keys at 1. simpl. rewrite elem_of_nil. split.
    - intros [[]|[Hn (idx & a & c & Hin & Hg)]]. split; [done|].
      exists a, c. split; [|done].
      apply elem_of_lookup_imap in Hin as (i & x & [= -> ->] & Hi).
      by eapply list_elem_of_lookup_2.
    - intros [Hn (a & c & Hin & Hg)]. right. split; [done|].
      apply list_elem_of_lookup_1 in Hin as [i Hi].
      exists i, a, c. split; [|done].
      apply elem_of_lookup_imap. by exists i, a. }
  induction es as [|[idx a] es IH]; intros m; cbn [fold_left owned_step].
  - split; [by left|]. intros [?|[_ (? & ? & ? & Hin & _)]]; [done|].
    by apply elem_of_nil in Hin.
  - rewrite IH, elem_keys_edge_fold. clear IH. split.
    + intros [[H|[Hn [c Hc]]]|[Hn (idx' & a' & c & Hin & Hg)]].
      * by left.
      * right. split; [done|]. exists idx, a, c. split; [left | done].
      * right. split; [done|]. exists idx', a', c. split; [by right | done].
    + intros [H|[Hn (idx' & a' & c & Hin & Hg)]]; [by do 2 left|].
      apply elem_of_cons in Hin as [[= -> ->]|Hin].
      * left. right. split; [done|]. by exists c.
      * right. split; [done|]. by exists idx', a', c.
Qed.

(** C6. For every owned-products list, graph and decay factor in (0, 1],
    no product of the owned-products list is a key of the score map
    returned by [score_candidates]. *)
Theorem score_candidates_excludes_owned (owned : list string) (g : Graph)
    (decay : Q) (p : string) :
  (0 < decay)%Q → (decay <= 1)%Q →
  p ∈ owned →
  p ∉ OD.keys (score_candidates owned g decay).
Proof.
  intros _ _ Hp [Hn _]%elem_keys_score_candidates. by apply Hn.
Qed.

Lemma score_candidates_excludes_owned_witness :
  (0 < default_decay)%Q ∧ (default_decay <= 1)%Q
  ∧ "p3"%string ∈ ["p1"; "p3"; "p4"]%string
  ∧ "p3"%string ∉
      OD.keys (score_candidates ["p1"; "p3"; "p4"]%string
                 (build_copurchase_graph history) default_decay).
Proof.
  assert (H1 : (0 < default_decay)%Q) by reflexivity.
  assert (H2 : (default_decay <= 1)%Q) by (intros H; discriminate H).
  assert (H3 : "p3"%string ∈ ["p1"; "p3"; "p4"]%string) by (right; left).
  split_and!; [exact H1 | exact H2 | exact H3 |].
  exact (score_candidates_excludes_owned _ _ _ _ H1 H2 H3).
Defined.

(** *** The scorer over floats *)

Lemma fold_outcome_pure {A B : Type} (f : A → B → outcome A) (h : A → B → A)
    (l : list B) (a : A) :
  (∀ a x, f a x = Returned (h a x)) →
  fold_outcome f l a = Returned (fold_left h l a).
Proof.
  intros Hf. revert a. induction l as [|x l IH]; intros a; [done|].
  cbn [fold_outcome fold_left]. rewrite Hf. cbn. apply IH.
Qed.


(** Over the exact rationals the float scorer is [score_candidates]. *)
Lemma score_candidates_exact (owned : list string) (g : Graph) (decay : Q) :
  Fp.score_candidates Qexact owned g decay
  = Returned (score_candidates owned g decay).
Proof.
  unfold Fp.score_candidates, score_candidates.
  apply fold_outcome_pure. intros m [idx a]. cbn.
  apply fold_outcome_pure. intros m' [[a' b'] c]. cbn.
  by destruct (_ && _).
Qed.

Section FloatScorerFacts.
Variable F : FloatOps.
Implicit Types (m : list (string * float F)) (g : Graph) (tp : list string).










End FloatScorerFacts.




(** A decay outside (0, 1] that is not computed with: 2.0 ** 600 squared is
    beyond the range of floats, so the third owned product raises. *)
Example score_candidates_power_overflow :
  Fp.score_candidates Qranged ["p1"; "p3"; "p4"]%string [] (inject_Z (2 ^ 600))
  = Raised OverflowError.
Proof. by vm_compute. Qed.

(** ** Stable descending sort *)

Section SortingFacts.
Context {A : Type} (le : A → A → bool).

Lemma insert_desc_perm (x : A) (l : list A) : insert_desc le x l ≡ₚ x :: l.
Proof.
  induction l as [|y l IH]; simpl; [done|].
  destruct (le y x); [done|].
  rewrite IH. apply Permutation_swap.
Qed.

Lemma sorted_desc_perm (l : list A) : sorted_desc le l ≡ₚ l.
Proof.
  induction l as [|x l IH]; simpl; [done|].
  by rewrite insert_desc_perm, IH.
Qed.

Lemma elem_of_sorted_desc (x : A) (l : list A) : x ∈ sorted_desc le l ↔ x ∈ l.
Proof. by rewrite sorted_desc_perm. Qed.

Lemma length_sorted_desc (l : list A) : length (sorted_desc le l) = length l.
Proof. by rewrite sorted_desc_perm. Qed.

Hypothesis le_total : ∀ x y, le x y = false → le y x = true.
Hypothesis le_trans : ∀ x y z, le x y = true → le y z = true → le x z = true.

Lemma insert_desc_sorted (x : A) (l : list A) :
  StronglySorted (before le) l → StronglySorted (before le) (insert_desc le x l).
Proof.
  induction l as [|y l IH]; intros Hl; simpl.
  - repeat constructor.
  - destruct (le y x) eqn:Hyx.
    + constructor; [done|]. apply StronglySorted_inv in Hl as [_ Hy].
      constructor; [done|].
      eapply Forall_impl; [exact Hy|]. intros z Hz. unfold before in *.
      by eapply le_trans.
    + apply StronglySorted_inv in Hl as [Hl Hy]. constructor; [by apply IH|].
      rewrite insert_desc_perm. constructor; [|done].
      by apply le_total.
Qed.

Lemma sorted_desc_sorted (l : list A) : StronglySorted (before le) (sorted_desc le l).
Proof.
  induction l as [|x l IH]; simpl; [constructor|].
  by apply insert_desc_sorted.
Qed.
End SortingFacts.

Lemma StronglySorted_weaken {A : Type} (R R' : A → A → Prop) (l : list A) :
  (∀ x y, R x y → R' x y) → StronglySorted R l → StronglySorted R' l.
Proof.
  intros HR. induction 1 as [|x l Hl IH Hx]; constructor; [done|].
  eapply Forall_impl; [exact Hx | apply HR].
Qed.

Lemma sorted_desc_count_sorted (l : list (string * Z)) :
  StronglySorted (λ x y, y.2 ≤ x.2) (sorted_desc count_le l).
Proof.
  apply (StronglySorted_weaken (before count_le)).
  { intros x y H. unfold before, count_le in H. by apply bool_decide_eq_true in H. }
  apply sorted_desc_sorted.
  - intros x y H. unfold count_le in *.
    apply bool_decide_eq_false in H. apply bool_decide_eq_true. lia.
  - intros x y z H1 H2. unfold count_le in *.
    apply bool_decide_eq_true in H1, H2. apply bool_decide_eq_true. lia.
Qed.

Lemma sorted_desc_score_sorted (l : list (string * Q)) :
  StronglySorted (λ x y, (y.2 <= x.2)%Q) (sorted_desc score_le l).
Proof.
  apply (StronglySorted_weaken (before score_le)).
  { intros x y H. unfold before, score_le in H. by apply Qle_bool_iff in H. }
  apply sorted_desc_sorted.
  - intros x y H. unfold score_le in *.
    apply Qle_bool_iff. apply Qlt_le_weak, Qnot_le_lt.
    intros H'. apply Qle_bool_iff in H'. congruence.
  - intros x y z H1 H2. unfold score_le in *.
    apply Qle_bool_iff in H1, H2. apply Qle_bool_iff. by eapply Qle_trans.
Qed.

Lemma sorted_desc_wf {V : Type} (le : string * V → string * V → bool)
    (d : list (string * V)) :
  OD.wf d → OD.wf (sorted_desc le d).
Proof. unfold OD.wf, OD.keys. by rewrite sorted_desc_perm. Qed.

(** ** Fairness re-ranker *)

Lemma brand_occurrences_snoc (products : Catalog) (b : string)
    (l : list (string * Q)) (x : string * Q) :
  brand_occurrences products b (l ++ [x]) =
    brand_occurrences products b l
    + (if decide (brand_of products x.1 = Some b) then 1 else 0).
Proof.
  unfold brand_occurrences. rewrite filter_app, len_app. f_equal.
  rewrite filter_cons, filter_nil. by case_decide.
Qed.

Lemma brand_occurrences_nonneg (products : Catalog) (b : string)
    (l : list (string * Q)) :
  0 ≤ brand_occurrences products b l.
Proof. apply len_nonneg. Qed.

Lemma pair_eqb_refl (x : string * Q) : pair_eqb x x = true.
Proof.
  unfold pair_eqb. rewrite bool_decide_eq_true_2 by done. simpl.
  apply Qeq_bool_iff. reflexivity.
Qed.

Lemma contains_elem (x : string * Q) (l : list (string * Q)) :
  x ∈ l → contains x l = true.
Proof.
  intros Hx. unfold contains. apply existsb_exists. exists x.
  split; [by apply list_elem_of_In | apply pair_eqb_refl].
Qed.

Lemma contains_key (x : string * Q) (l : list (string * Q)) :
  contains x l = true → x.1 ∈ l.*1.
Proof.
  unfold contains. intros (y & Hy & Heq)%existsb_exists.
  apply list_elem_of_In in Hy. unfold pair_eqb in Heq.
  apply andb_true_iff in Heq as [Heq%bool_decide_eq_true _].
  rewrite Heq. by apply list_elem_of_fmap_2.
Qed.

Lemma contains_app (x : string * Q) (l k : list (string * Q)) :
  contains x (l ++ k) = contains x l || contains x k.
Proof. apply existsb_app. Qed.

Lemma wf_elem_inj {V : Type} (d : list (string * V)) (x y : string * V) :
  OD.wf d → x ∈ d → y ∈ d → x.1 = y.1 → x = y.
Proof.
  destruct x as [k v], y as [k' v']. simpl. intros Hwf Hx Hy <-.
  apply (elem_get_Some _ _ _ Hwf) in Hx, Hy. congruence.
Qed.

Section RerankFacts.
Variable products : Catalog.
Variables top_k max_per_brand min_category_diversity : Z.

Lemma counter_ok_init : counter_ok products init_state.
Proof. intros b. reflexivity. Qed.

Lemma counter_ok_accept st pid score prod :
  products !! pid = Some prod →
  counter_ok products st → counter_ok products (accept st pid score prod).
Proof.
  intros Hprod Hok b. unfold accept; cbn [brand_counter chosen].
  rewrite brand_occurrences_snoc. unfold counter_get at 1.
  rewrite lookup_insert. unfold brand_of. cbn [fst]. rewrite Hprod. cbn.
  destruct (decide (brand prod = b)) as [->|Hne].
  - rewrite decide_True by done. cbn. by rewrite Hok.
  - rewrite decide_False by congruence. rewrite <- Hok. unfold counter_get. lia.
Qed.

(** An invariant of the first loop: it holds of the final state if it
    holds initially and every acceptance preserves it. *)
Lemma first_pass_inv (P : RerankState → Prop) :
  (∀ st pid score prod,
      P st → products !! pid = Some prod →
      counter_get (brand_counter st) (brand prod) < max_per_brand →
      P (accept st pid score prod)) →
  ∀ items st,
    P st → P (first_pass products top_k max_per_brand min_category_diversity items st).
Proof.
  intros Hstep items. induction items as [|[pid score] rest IH]; intros st Hst.
  - done.
  - cbn [first_pass].
    destruct (products !! pid) as [prod|] eqn:Hprod; [|by apply IH].
    case_bool_decide as Hcap; [by apply IH|].
    assert (P (accept st pid score prod)) as Hacc.
    { apply Hstep; [done..|lia]. }
    destruct (_ && _); [done | by apply IH].
Qed.

Lemma first_pass_counter_ok items st :
  counter_ok products st →
  counter_ok products
    (first_pass products top_k max_per_brand min_category_diversity items st).
Proof.
  apply first_pass_inv. intros st' pid score prod Hok Hprod _.
  by apply counter_ok_accept.
Qed.

Lemma first_pass_capped items st b :
  counter_ok products st →
  brand_occurrences products b (chosen st) ≤ Z.max 0 max_per_brand →
  brand_occurrences products b
    (chosen (first_pass products top_k max_per_brand min_category_diversity items st))
  ≤ Z.max 0 max_per_brand.
Proof.
  intros Hok Hcap.
  set (final := first_pass products top_k max_per_brand min_category_diversity items st).
  enough (counter_ok products final
          ∧ brand_occurrences products b (chosen final)
            ≤ Z.max 0 max_per_brand) as [_ H]; [done|].
  apply (first_pass_inv (λ st, counter_ok products st
          ∧ brand_occurrences products b (chosen st) ≤ Z.max 0 max_per_brand));
    [|done].
  intros st' pid score prod [Hok' Hcap'] Hprod Hlt.
  split; [by apply counter_ok_accept|].
  unfold accept; cbn [chosen]. rewrite brand_occurrences_snoc.
  unfold brand_of. cbn [fst]. rewrite Hprod. cbn.
  destruct (decide (Some (brand prod) = Some b)) as [[= <-]|Hne]; [|lia].
  rewrite <- Hok'. lia.
Qed.

(** What the first loop adds is a subsequence of the items it walks,
    made of products the catalog knows. *)
Lemma first_pass_chosen items st :
  ∃ l, chosen (first_pass products top_k max_per_brand min_category_diversity items st)
       = chosen st ++ l
       ∧ l `sublist_of` items
       ∧ Forall (λ x, is_Some (products !! x.1)) l.
Proof.
  revert st. induction items as [|[pid score] rest IH]; intros st.
  - exists []. by rewrite app_nil_r.
  - cbn [first_pass].
    destruct (products !! pid) as [prod|] eqn:Hprod.
    2: { destruct (IH st) as (l & -> & Hl & HF). exists l.
         split_and!; [done | by apply sublist_cons | done]. }
    case_bool_decide as Hcap.
    { destruct (IH st) as (l & -> & Hl & HF). exists l.
      split_and!; [done | by apply sublist_cons | done]. }
    destruct (_ && _).
    + exists [(pid, score)]. split_and!; [done | |].
      * apply sublist_skip, sublist_nil_l.
      * constructor; [|done]. cbn. by rewrite Hprod.
    + destruct (IH (accept st pid score prod)) as (l & -> & Hl & HF).
      exists ((pid, score) :: l). cbn [accept chosen].
      rewrite <- app_assoc. split_and!; [done | by apply sublist_skip |].
      constructor; [|done]. cbn. by rewrite Hprod.
Qed.

(** What the second loop adds is a subsequence of the items it walks,
    made of catalog products that had not been chosen. *)
Lemma backfill_chosen items chosen :
  ∃ l, backfill products top_k items chosen = chosen ++ l
       ∧ l `sublist_of` items
       ∧ Forall (λ x, is_Some (products !! x.1) ∧ contains x chosen = false) l.
Proof.
  revert chosen. induction items as [|[pid score] rest IH]; intros chosen.
  - exists []. by rewrite app_nil_r.
  - cbn [backfill].
    destruct (contains (pid, score) chosen) eqn:Hin.
    { destruct (IH chosen) as (l & -> & Hl & HF). exists l.
      split_and!; [done | by apply sublist_cons | done]. }
    destruct (products !! pid) as [prod|] eqn:Hprod.
    2: { destruct (IH chosen) as (l & -> & Hl & HF). exists l.
         split_and!; [done | by apply sublist_cons | done]. }
    case_bool_decide as Hlen.
    + exists [(pid, score)]. split_and!; [done | |].
      * apply sublist_skip, sublist_nil_l.
      * constructor; [|done]. cbn. by rewrite Hprod.
    + destruct (IH (chosen ++ [(pid, score)])) as (l & -> & Hl & HF).
      exists ((pid, score) :: l).
      rewrite <- app_assoc. split_and!; [done | by apply sublist_skip |].
      constructor; [cbn; by rewrite Hprod|].
      eapply Forall_impl; [exact HF|]. intros x [Hx Hc]. split; [done|].
      rewrite contains_app in Hc. by apply orb_false_iff in Hc as [Hc _].
Qed.
End RerankFacts.

(** The output of [fairness_rerank] is the first-pass selection followed by
    what the backfill adds; both are subsequences of the sorted candidates
    made of catalog products, and nothing the backfill adds had been chosen
    by the first pass. *)
Lemma fairness_rerank_structure (products : Catalog)
    (top_k max_per_brand min_category_diversity : Z) (candidates : ScoreMap) :
  ∃ added,
    fairness_rerank products top_k max_per_brand min_category_diversity candidates
    = first_pass_selection products top_k max_per_brand min_category_diversity candidates
      ++ added
    ∧ first_pass_selection products top_k max_per_brand min_category_diversity candidates
      `sublist_of` sorted_desc score_le candidates
    ∧ added `sublist_of` sorted_desc score_le candidates
    ∧ Forall (λ x, is_Some (products !! x.1))
        (first_pass_selection products top_k max_per_brand min_category_diversity
           candidates)
    ∧ Forall (λ x, is_Some (products !! x.1)
                   ∧ contains x (first_pass_selection products top_k max_per_brand
                                   min_category_diversity candidates) = false) added.
Proof.
  unfold fairness_rerank, first_pass_selection.
  destruct (first_pass_chosen products top_k max_per_brand min_category_diversity
              (sorted_desc score_le candidates) init_state) as (l & Hl & Hsub & HF).
  cbn [chosen init_state app] in Hl. rewrite Hl.
  case_bool_decide as Hlen.
  - destruct (backfill_chosen products top_k (sorted_desc score_le candidates) l)
      as (added & -> & Hsub' & HF').
    by exists added.
  - exists []. rewrite app_nil_r. split_and!; try done. apply sublist_nil_l.
Qed.

Lemma first_pass_selection_prefix (products : Catalog)
    (top_k max_per_brand min_category_diversity : Z) (candidates : ScoreMap) :
  first_pass_selection products top_k max_per_brand min_category_diversity candidates
  `prefix_of`
  fairness_rerank products top_k max_per_brand min_category_diversity candidates.
Proof.
  destruct (fairness_rerank_structure products top_k max_per_brand
              min_category_diversity candidates) as (added & -> & _).
  by apply prefix_app_r.
Qed.

Lemma first_pass_selection_capped (products : Catalog)
    (top_k max_per_brand min_category_diversity : Z) (candidates : ScoreMap)
    (b : string) :
  brand_occurrences products b
    (first_pass_selection products top_k max_per_brand min_category_diversity candidates)
  ≤ Z.max 0 max_per_brand.
Proof.
  unfold first_pass_selection. apply first_pass_capped.
  - apply counter_ok_init.
  - change (0 ≤ Z.max 0 max_per_brand). lia.
Qed.

(** C7. In the part of the re-ranker's output that the first pass selected
    (a prefix of the output), a brand that occurs at all occurs at most
    [max_per_brand] times. *)
Theorem first_pass_brand_cap (candidates : ScoreMap) (products : Catalog)
    (top_k max_per_brand min_category_diversity : Z) (b : string) :
  0 < brand_occurrences products b
        (first_pass_selection products top_k max_per_brand min_category_diversity
           candidates) →
  first_pass_selection products top_k max_per_brand min_category_diversity candidates
  `prefix_of`
  fairness_rerank products top_k max_per_brand min_category_diversity candidates
  ∧ brand_occurrences products b
      (first_pass_selection products top_k max_per_brand min_category_diversity
         candidates)
    ≤ max_per_brand.
Proof.
  intros Hpos. split; [apply first_pass_selection_prefix|].
  pose proof (first_pass_selection_capped products top_k max_per_brand
                min_category_diversity candidates b). lia.
Qed.

Lemma first_pass_brand_cap_witness :
  0 < brand_occurrences catalog "AquaCo" (first_pass_selection catalog 2 1 2 aqua_candidates)
  ∧ first_pass_selection catalog 2 1 2 aqua_candidates
    `prefix_of` fairness_rerank catalog 2 1 2 aqua_candidates
  ∧ brand_occurrences catalog "AquaCo" (first_pass_selection catalog 2 1 2 aqua_candidates)
    ≤ 1.
Proof.
  assert (H : 0 < brand_occurrences catalog "AquaCo"
                    (first_pass_selection catalog 2 1 2 aqua_candidates))
    by (vm_compute; reflexivity).
  split; [exact H|].
  exact (first_pass_brand_cap aqua_candidates catalog 2 1 2 "AquaCo" H).
Defined.

(** C10. Every (product id, score) pair of the re-ranker's output is an
    entry of the input score map, with its score, and no product id occurs
    twice in the output. *)
Theorem fairness_rerank_entries (candidates : ScoreMap) (products : Catalog)
    (top_k max_per_brand min_category_diversity : Z) :
  OD.wf candidates →
  (∀ pid score,
      (pid, score)
        ∈ fairness_rerank products top_k max_per_brand min_category_diversity candidates →
      OD.get pid candidates = Some score)
  ∧ NoDup (fairness_rerank products top_k max_per_brand min_category_diversity
             candidates).*1.
Proof.
  intros Hwf.
  destruct (fairness_rerank_structure products top_k max_per_brand
              min_category_diversity candidates)
    as (added & -> & Hsub1 & Hsub2 & _ & Hnew).
  pose proof (sorted_desc_wf score_le candidates Hwf) as Hwf'.
  split.
  - intros pid score Hin. apply elem_get_Some; [done|].
    apply (elem_of_sorted_desc score_le).
    apply elem_of_app in Hin as [Hin|Hin]; by eapply elem_of_sublist.
  - rewrite fmap_app. apply NoDup_app. split_and!.
    + apply (sublist_NoDup _ (sorted_desc score_le candidates).*1);
        [exact Hwf' | by apply fmap_sublist].
    + intros k (x & -> & Hx)%list_elem_of_fmap (y & Hxy & Hy)%list_elem_of_fmap.
      rewrite Forall_forall in Hnew. destruct (Hnew y Hy) as [_ Hc].
      assert (x = y) as ->.
      { apply (wf_elem_inj (sorted_desc score_le candidates)); [done| | |done];
          by eapply elem_of_sublist. }
      rewrite contains_elem in Hc; done.
    + apply (sublist_NoDup _ (sorted_desc score_le candidates).*1);
        [exact Hwf' | by apply fmap_sublist].
Qed.

Lemma fairness_rerank_entries_witness :
  OD.wf aqua_candidates
  ∧ (∀ pid score,
        (pid, score) ∈ fairness_rerank catalog 2 1 2 aqua_candidates →
        OD.get pid aqua_candidates = Some score)
  ∧ NoDup (fairness_rerank catalog 2 1 2 aqua_candidates).*1.
Proof.
  assert (H : OD.wf aqua_candidates).
  { unfold OD.wf. apply (bool_decide_unpack _). vm_compute. exact I. }
  split; [exact H|].
  exact (fairness_rerank_entries aqua_candidates catalog 2 1 2 H).
Defined.

(** *** The size of the result *)

Section RerankSize.
Variable products : Catalog.
Variables top_k max_per_brand min_category_diversity : Z.

(** The second loop never grows the list beyond [top_k]. *)
Lemma backfill_length items chosen :
  len chosen < top_k → len (backfill products top_k items chosen) ≤ top_k.
Proof.
  revert chosen. induction items as [|[pid score] rest IH]; intros chosen Hlen.
  - cbn. lia.
  - cbn [backfill]. destruct (contains _ _); [by apply IH|].
    destruct (products !! pid); [|by apply IH].
    case_bool_decide as Hk; [lia|].
    apply IH. rewrite len_app in *. change (len [(pid, score)]) with 1 in *. lia.
Qed.

(** If the second loop ends below [top_k], it has taken every catalog
    product among the items. *)
Lemma backfill_exhausts items chosen x :
  len (backfill products top_k items chosen) < top_k →
  x ∈ items → is_Some (products !! x.1) →
  contains x (backfill products top_k items chosen) = true.
Proof.
  revert chosen. induction items as [|[pid score] rest IH]; intros chosen Hlen Hx Hp.
  - by apply elem_of_nil in Hx.
  - assert (∀ c, contains (pid, score) c = true →
                 contains (pid, score) (backfill products top_k rest c) = true)
      as Hmono.
    { intros c Hc. destruct (backfill_chosen products top_k rest c) as (l & -> & _).
      by rewrite contains_app, Hc. }
    cbn [backfill] in *.
    apply elem_of_cons in Hx as [->|Hx].
    + destruct (contains (pid, score) chosen) eqn:Hc; [by apply Hmono|].
      destruct Hp as [prod Hprod]. cbn in Hprod. rewrite Hprod in *.
      case_bool_decide as Hk; [lia|].
      apply Hmono. rewrite contains_app. cbn. rewrite pair_eqb_refl.
      by rewrite orb_true_r.
    + destruct (contains (pid, score) chosen); [by apply IH|].
      destruct (products !! pid); [|by apply IH].
      case_bool_decide as Hk; [lia|]. by apply IH.
Qed.

(** With [min_category_diversity <= 1] the first loop stops as soon as
    [top_k] candidates are chosen. *)
Lemma first_pass_length items st :
  min_category_diversity ≤ 1 →
  len (chosen st) < top_k →
  len (chosen (first_pass products top_k max_per_brand min_category_diversity items st))
  ≤ top_k.
Proof.
  intros Hdiv. revert st. induction items as [|[pid score] rest IH]; intros st Hlen.
  - cbn. lia.
  - cbn [first_pass]. destruct (products !! pid) as [prod|]; [|by apply IH].
    case_bool_decide as Hcap; [by apply IH|].
    assert (len (chosen (accept st pid score prod)) = len (chosen st) + 1)
      as Hacc by (cbn [accept chosen]; by rewrite len_app).
    assert (1 ≤ Z.of_nat (size (categories_present (accept st pid score prod))))
      as Hcat.
    { cbn [accept categories_present].
      assert (({[category prod]} : gset string)
              ⊆ categories_present st ∪ {[category prod]}) as Hs by set_solver.
      apply subseteq_size in Hs. rewrite size_singleton in Hs. lia. }
    case_bool_decide as Hk.
    + rewrite bool_decide_eq_true_2 by lia. cbn [andb]. lia.
    + cbn [andb]. apply IH. lia.
Qed.
End RerankSize.

(** The bound [len(result) <= top_k] holds whenever the first pass has
    selected at most [top_k] candidates. *)
Lemma fairness_rerank_length (candidates : ScoreMap) (products : Catalog)
    (top_k max_per_brand min_category_diversity : Z) :
  len (first_pass_selection products top_k max_per_brand min_category_diversity
         candidates) ≤ top_k →
  len (fairness_rerank products top_k max_per_brand min_category_diversity candidates)
  ≤ top_k.
Proof.
  intros Hfp. unfold fairness_rerank. case_bool_decide as Hlt; [|done].
  by apply backfill_length.
Qed.

(** In particular it holds for [top_k >= 1] when a single category
    suffices. *)
Lemma fairness_rerank_length_one_category (candidates : ScoreMap) (products : Catalog)
    (top_k max_per_brand min_category_diversity : Z) :
  1 ≤ top_k → min_category_diversity ≤ 1 →
  len (fairness_rerank products top_k max_per_brand min_category_diversity candidates)
  ≤ top_k.
Proof.
  intros Hk Hdiv. apply fairness_rerank_length. unfold first_pass_selection.
  apply first_pass_length; [done|]. change (0 < top_k). lia.
Qed.

(** A result shorter than [top_k] contains every candidate the catalog
    knows, so there are fewer than [top_k] of them. *)
Lemma fairness_rerank_short (candidates : ScoreMap) (products : Catalog)
    (top_k max_per_brand min_category_diversity : Z) :
  OD.wf candidates →
  len (fairness_rerank products top_k max_per_brand min_category_diversity candidates)
  < top_k →
  len (catalog_present products candidates) < top_k.
Proof.
  intros Hwf Hshort.
  set (out := fairness_rerank products top_k max_per_brand min_category_diversity
                candidates) in *.
  enough (length (catalog_present products candidates).*1 ≤ length out.*1)%nat as Hle.
  { rewrite !length_fmap in Hle. unfold len in *. lia. }
  apply submseteq_length, NoDup_submseteq.
  - apply (sublist_NoDup _ candidates.*1); [exact Hwf|].
    apply fmap_sublist, sublist_filter.
  - intros k (x & -> & Hx)%list_elem_of_fmap.
    apply list_elem_of_filter in Hx as [Hp Hx].
    apply contains_key. subst out. unfold fairness_rerank in *.
    case_bool_decide as Hlt; [|lia].
    apply backfill_exhausts; [done | by apply elem_of_sorted_desc | done].
Qed.

(** C1 fails on the code. With [top_k = 1] and the default caps, the first
    pass reaches one chosen candidate while only one category is present,
    so the [break] is not taken and the loop goes on: all three candidates
    are returned. *)
Theorem fairness_rerank_exceeds_top_k :
  fairness_rerank catalog 1 2 2 outdoors_candidates
  = [("p1", 3%Q); ("p3", 2%Q); ("p6", 1%Q)]%string
  ∧ len (fairness_rerank catalog 1 2 2 outdoors_candidates) = 3
  ∧ ¬ len (fairness_rerank catalog 1 2 2 outdoors_candidates) ≤ 1.
Proof. split_and!; [by vm_compute | by vm_compute | by vm_compute]. Qed.

(** The same through the pipeline: a request for one recommendation
    yields two. *)
Lemma recommend_for_user_exceeds_top_k :
  (recommend_for_user "u1" outdoors_history catalog 1).*1.*1 = ["p3"; "p6"]%string.
Proof. by vm_compute. Qed.

(** *** Non-positive [top_k] *)

Lemma first_pass_nonpositive (products : Catalog)
    (top_k max_per_brand min_category_diversity : Z)
    (items : list (string * Q)) (st : RerankState) :
  top_k ≤ 0 → counter_ok products st →
  chosen (first_pass products top_k max_per_brand min_category_diversity items st)
  = brand_capped products max_per_brand items (chosen st).
Proof.
  intros Hk. revert st. induction items as [|[pid score] rest IH]; intros st Hok.
  - done.
  - cbn [first_pass brand_capped].
    destruct (products !! pid) as [prod|] eqn:Hprod; [|by apply IH].
    rewrite <- (Hok (brand prod)).
    case_bool_decide as Hcap; [by apply IH|].
    rewrite bool_decide_eq_false_2.
    + cbn [andb]. rewrite IH by (by apply counter_ok_accept). done.
    + cbn [accept chosen]. rewrite len_app. pose proof (len_nonneg (chosen st)).
      change (len [(pid, score)]) with 1. lia.
Qed.

(** C4, as the code behaves. [fairness_rerank] does not inspect [top_k]:
    with [top_k <= 0] the call returns normally, and the list it returns is
    not cut at all: it holds every catalog candidate, in score order, that
    the brand cap lets through. *)
Theorem fairness_rerank_nonpositive_top_k (candidates : ScoreMap) (products : Catalog)
    (top_k max_per_brand min_category_diversity : Z) :
  top_k ≤ 0 →
  call_fairness_rerank candidates products top_k max_per_brand min_category_diversity
  = Returned (brand_capped products max_per_brand (sorted_desc score_le candidates) []).
Proof.
  intros Hk. unfold call_fairness_rerank, fairness_rerank, first_pass_selection.
  f_equal. rewrite first_pass_nonpositive by (done || apply counter_ok_init).
  rewrite bool_decide_eq_false_2; [done|].
  pose proof (len_nonneg (brand_capped products max_per_brand
                            (sorted_desc score_le candidates) (chosen init_state))).
  lia.
Qed.

Lemma fairness_rerank_nonpositive_top_k_witness :
  0 ≤ 0
  ∧ call_fairness_rerank aqua_candidates catalog 0 2 2
    = Returned (brand_capped catalog 2 (sorted_desc score_le aqua_candidates) []).
Proof.
  assert (H : 0 ≤ 0) by lia.
  split; [exact H|].
  exact (fairness_rerank_nonpositive_top_k aqua_candidates catalog 0 2 2 H).
Defined.

(** C4, as stated, fails: with [top_k = 0] the call is not rejected, it
    returns all three candidates. *)
Lemma fairness_rerank_rejects_top_k_counterexample :
  0 ≤ 0
  ∧ call_fairness_rerank aqua_candidates catalog 0 2 2
    = Returned [("p1", 3%Q); ("p2", 2%Q); ("p3", 1%Q)]%string
  ∧ call_fairness_rerank aqua_candidates catalog 0 2 2 ≠ Raised InvalidConfiguration.
Proof. split_and!; [lia | by vm_compute | discriminate]. Qed.

(** ** Unknown users *)

Lemma fairness_rerank_nil (products : Catalog)
    (top_k max_per_brand min_category_diversity : Z) :
  fairness_rerank products top_k max_per_brand min_category_diversity [] = [].
Proof. unfold fairness_rerank. by case_bool_decide. Qed.

(** C8. For a user id that is not a key of the purchase history,
    [recommend_for_user] returns normally with the empty list: the
    owned-products list is empty, the scorer yields the empty score map and
    the re-ranker the empty list. *)
Theorem recommend_for_user_unknown (user_id : string)
    (purchase_history : PurchaseHistory) (products : Catalog) (top_k : Z) :
  OD.get user_id purchase_history = None →
  default [] (OD.get user_id purchase_history) = []
  ∧ score_candidates (default [] (OD.get user_id purchase_history))
      (build_copurchase_graph purchase_history) default_decay = []
  ∧ fairness_rerank products top_k 2 2
      (score_candidates (default [] (OD.get user_id purchase_history))
         (build_copurchase_graph purchase_history) default_decay) = []
  ∧ call_recommend_for_user user_id purchase_history products top_k = Returned [].
Proof.
  intros Habsent. unfold call_recommend_for_user, recommend_for_user.
  rewrite Habsent. cbn [default]. unfold score_candidates.
  cbn [enumerate imap fold_left].
  rewrite fairness_rerank_nil. done.
Qed.

Lemma recommend_for_user_unknown_witness :
  OD.get "u9"%string history = None
  ∧ default [] (OD.get "u9"%string history) = []
  ∧ score_candidates (default [] (OD.get "u9"%string history))
      (build_copurchase_graph history) default_decay = []
  ∧ fairness_rerank catalog 5 2 2
      (score_candidates (default [] (OD.get "u9"%string history))
         (build_copurchase_graph history) default_decay) = []
  ∧ call_recommend_for_user "u9" history catalog 5 = Returned [].
Proof.
  assert (H : OD.get "u9"%string history = None) by reflexivity.
  split; [exact H|].
  exact (recommend_for_user_unknown "u9" history catalog 5 H).
Defined.

(** ** Explainer *)

Lemma fold_contribution_step (product_id : string) (edge_to_count : Graph)
    (user_products : list string) (acc : list (string * Z)) :
  fold_left (contribution_step product_id edge_to_count) user_products acc
  = acc ++ contributions product_id user_products edge_to_count.
Proof.
  revert acc. induction user_products as [|o l IH]; intros acc.
  - by rewrite app_nil_r.
  - cbn [fold_left]. rewrite IH. unfold contributions, contribution_step.
    fold (copurchase_count edge_to_count o product_id).
    rewrite filter_cons. case_bool_decide as Hpos.
    + rewrite decide_True by done. by rewrite fmap_cons, <- app_assoc.
    + by rewrite decide_False by done.
Qed.

Lemma fold_render {A B : Type} (f : A → B) (l : list A) (acc : list B) :
  fold_left (λ parts c, parts ++ [f c]) l acc = acc ++ (f <$> l).
Proof.
  revert acc. induction l as [|x l IH]; intros acc; cbn [fold_left].
  - by rewrite app_nil_r.
  - by rewrite IH, fmap_cons, <- app_assoc.
Qed.

(** The explainer in closed form. *)
Lemma explain_recommendation_unfold (product_id : string) (user_products : list string)
    (edge_to_count : Graph) (products : Catalog) :
  explain_recommendation product_id user_products edge_to_count products
  = match take 3 (sorted_desc count_le
                    (contributions product_id user_products edge_to_count)) with
    | [] => fallback_text (display_title products product_id)
    | top => because_text (display_title products product_id)
               (render_part products <$> top)
    end.
Proof.
  unfold explain_recommendation.
  rewrite fold_contribution_step, fold_render. cbn [app].
  by destruct (take 3 _).
Qed.

Lemma contributions_nil (product_id : string) (user_products : list string)
    (edge_to_count : Graph) :
  contributions product_id user_products edge_to_count = []
  ↔ ∀ o, o ∈ user_products → ¬ 0 < copurchase_count edge_to_count o product_id.
Proof.
  unfold contributions. split.
  - intros H%fmap_nil_inv o Ho Hpos.
    assert (o ∈ filter (λ owned, 0 < copurchase_count edge_to_count owned product_id)
                  user_products) as Hin by (by apply list_elem_of_filter).
    rewrite H in Hin. by apply elem_of_nil in Hin.
  - intros H. induction user_products as [|o l IH]; [done|].
    rewrite filter_cons. rewrite decide_False.
    + apply IH. intros o' Ho'. apply H. by right.
    + apply H. left.
Qed.

Lemma take3_top3_of (l : list (string * Z)) :
  top3_of (take 3 (sorted_desc count_le l)) l.
Proof.
  pose proof (sorted_desc_count_sorted l) as Hsorted.
  rewrite <- (take_drop 3 (sorted_desc count_le l)) in Hsorted.
  exists (drop 3 (sorted_desc count_le l)). split_and!.
  - rewrite take_drop. apply sorted_desc_perm.
  - rewrite length_take. lia.
  - destruct (decide (length (sorted_desc count_le l) ≤ 3)%nat) as [Hle|Hgt].
    + left. by apply drop_ge.
    + right. rewrite length_take. lia.
  - by eapply StronglySorted_app_1_l.
  - intros x y Hx Hy.
    by apply (StronglySorted_app_1_elem_of _ _ _ _ _ Hsorted).
Qed.

Lemma append_inv_head (s a b : string) : s +:+ a = s +:+ b → a = b.
Proof.
  induction s as [|c s IH]; cbn; [done|]. intros [= H]. by apply IH.
Qed.

Lemma because_text_not_fallback (prod_title : string) (parts : list string) :
  because_text prod_title parts ≠ fallback_text prod_title.
Proof.
  unfold because_text, fallback_text. intros H.
  do 2 apply append_inv_head in H. cbn in H. discriminate H.
Qed.

Lemma named_parts (products : Catalog) (top : list (string * Z)) :
  Forall2 (named_part products) top (render_part products <$> top).
Proof. induction top; constructor; done. Qed.

(** C9, as the code behaves. The explainer returns the generic fallback
    explanation exactly when no owned product has a positive co-purchase
    count with the recommended product. Otherwise it lists the top three
    contributing owned products (all of them if there are at most three) by
    descending count, each rendered as its display name followed by the
    count in parentheses, where the display name is the catalog title, or
    the product id when the catalog has no entry for the owned product. *)
Theorem explain_recommendation_spec (product_id : string) (user_products : list string)
    (edge_to_count : Graph) (products : Catalog) :
  (explain_recommendation product_id user_products edge_to_count products
   = fallback_text (display_title products product_id)
   ↔ ∀ o, o ∈ user_products → ¬ 0 < copurchase_count edge_to_count o product_id)
  ∧ ((∃ o, o ∈ user_products ∧ 0 < copurchase_count edge_to_count o product_id) →
     ∃ top parts,
       top3_of top (contributions product_id user_products edge_to_count)
       ∧ Forall2 (named_part products) top parts
       ∧ explain_recommendation product_id user_products edge_to_count products
         = because_text (display_title products product_id) parts).
Proof.
  rewrite explain_recommendation_unfold.
  pose proof (take3_top3_of (contributions product_id user_products edge_to_count))
    as Htop.
  rewrite <- contributions_nil.
  destruct (take 3 _) as [|c top] eqn:Htake.
  - assert (contributions product_id user_products edge_to_count = []) as Hnil.
    { destruct Htop as (rest & Hperm & _ & [->|Hlen] & _); [|done].
      by apply Permutation_nil_r. }
    split; [done|].
    intros (o & Ho & Hpos). exfalso.
    by apply (proj1 (contributions_nil _ _ _) Hnil o Ho).
  - split.
    + split.
      * intros H. by apply because_text_not_fallback in H.
      * intros Hnil. rewrite Hnil in Htake. done.
    + intros _. exists (c :: top), (render_part products <$> c :: top).
      split_and!; [done | apply named_parts | done].
Qed.

Example explain_recommendation_stale_catalog :
  explain_recommendation "p2" ["p9"]%string stale_graph catalog
  = "Recommended 'Insulated Mug' because you bought: p9 (1)"%string.
Proof. by vm_compute. Qed.

Example explain_recommendation_demo :
  explain_recommendation "p6" ["p1"; "p3"; "p4"]%string
    (build_copurchase_graph history) catalog
  = "Recommended 'Camping Stove' because you bought: Eco Water Bottle (1), Trail Backpack (1)"%string.
Proof. by vm_compute. Qed.

(** C9, as stated, fails: the owned product p9 has a positive count with
    p2 but no catalog entry, so the listed part is not a title followed by
    the count; the explainer prints the product id in its place. *)
Lemma explain_recommendation_titles_counterexample :
  (∃ o, o ∈ ["p9"]%string ∧ 0 < copurchase_count stale_graph o "p2")
  ∧ ¬ (∃ top parts,
         top3_of top (contributions "p2" ["p9"]%string stale_graph)
         ∧ Forall2 (titled_part catalog) top parts
         ∧ explain_recommendation "p2" ["p9"]%string stale_graph catalog
           = because_text (display_title catalog "p2") parts).
Proof.
  split.
  - exists "p9"%string. split; [left | by vm_compute].
  - intros (top & parts & (rest & Hperm & _ & Hrest & _) & Hparts & Hout).
    change (contributions "p2" ["p9"]%string stale_graph)
      with [("p9"%string, 1)] in Hperm.
    destruct Hrest as [->|Hlen].
    + rewrite app_nil_r in Hperm. apply Permutation_singleton_r in Hperm as ->.
      apply Forall2_cons_inv_l in Hparts as (part & parts' & (prod & Hprod & _) & _).
      vm_compute in Hprod. discriminate Hprod.
    + apply Permutation_length in Hperm. rewrite length_app, Hlen in Hperm.
      cbn in Hperm. lia.
Qed.

(** * Further properties *)

(** ** Co-purchase graph builder *)

Lemma build_copurchase_graph_invariant (purchase_history : PurchaseHistory) :
  graph_symmetric (build_copurchase_graph purchase_history)
  ∧ graph_irreflexive (build_copurchase_graph purchase_history).
Proof.
  unfold build_copurchase_graph.
  apply (fold_left_inv (λ g, graph_symmetric g ∧ graph_irreflexive g)).
  - split; intros ?; reflexivity.
  - intros g entry _. apply user_step_invariant.
Qed.

(** Every count stored in the graph is at least 1. *)
Lemma build_copurchase_graph_counts_positive (purchase_history : PurchaseHistory)
    (key : string * string) (c : Z) :
  OD.get key (build_copurchase_graph purchase_history) = Some c → 1 ≤ c.
Proof.
  revert key c. unfold build_copurchase_graph.
  apply (fold_left_inv (λ g : Graph, ∀ key c, OD.get key g = Some c → 1 ≤ c)); [done|].
  intros g entry _ Hg. unfold user_step.
  apply (fold_left_inv (λ g : Graph, ∀ key c, OD.get key g = Some c → 1 ≤ c)); [done|].
  intros g' i _ Hg'. unfold row_step.
  apply (fold_left_inv (λ g : Graph, ∀ key c, OD.get key g = Some c → 1 ≤ c)); [done|].
  intros g'' j _ Hg''. unfold pair_step.
  destruct (_ !! i) as [a|]; [|done]. destruct (_ !! j) as [b|]; [|done].
  assert (∀ k (h : Graph),
            (∀ key c, OD.get key h = Some c → 1 ≤ c) →
            ∀ key c, OD.get key (incr k h) = Some c → 1 ≤ c) as Hincr.
  { intros k h Hh key c. rewrite get_incr. case_decide; [|apply Hh].
    intros [= <-]. destruct (OD.get k h) as [c'|] eqn:Hk; cbn; [|lia].
    apply Hh in Hk. lia. }
  by do 2 apply Hincr.
Qed.

(** X1. For two different products, the count the graph stores for the
    edge between them (0 if the edge is absent) is the number of users
    whose purchases include both. *)
Theorem edge_count_common_buyers (purchase_history : PurchaseHistory)
    (a b : string) :
  a ≠ b →
  edge_count (build_copurchase_graph purchase_history) (a, b)
  = len (buyers_of_both a b purchase_history).
Proof. apply build_copurchase_graph_count. Qed.

Lemma edge_count_common_buyers_witness :
  "p1"%string ≠ "p4"%string
  ∧ edge_count (build_copurchase_graph history) ("p1", "p4")%string
    = len (buyers_of_both "p1" "p4" history).
Proof.
  assert (H : "p1"%string ≠ "p4"%string) by discriminate.
  split; [exact H|].
  exact (edge_count_common_buyers history "p1" "p4" H).
Defined.

(** X2. A pair (a, b) is a key of the graph exactly when a and b are
    different products and some user's purchases include both. *)
Theorem edge_present_iff_common_buyer (purchase_history : PurchaseHistory)
    (a b : string) :
  (a, b) ∈ OD.keys (build_copurchase_graph purchase_history)
  ↔ a ≠ b ∧ ∃ entry, entry ∈ purchase_history ∧ a ∈ entry.2 ∧ b ∈ entry.2.
Proof.
  destruct (build_copurchase_graph_invariant purchase_history) as [_ Hirr].
  split.
  - intros Hkey.
    assert (a ≠ b) as Hab.
    { intros ->. by apply (get_None (b, b)) in Hkey; [|apply Hirr]. }
    split; [done|].
    destruct (OD.get (a, b) (build_copurchase_graph purchase_history)) as [c|] eqn:Hc.
    2: { by apply get_None in Hc. }
    pose proof (build_copurchase_graph_counts_positive _ _ _ Hc) as Hpos.
    pose proof (build_copurchase_graph_count purchase_history a b Hab) as Hcount.
    unfold edge_count in Hcount. rewrite Hc in Hcount. cbn in Hcount.
    destruct (buyers_of_both a b purchase_history) as [|entry l] eqn:Hl.
    { unfold len in Hcount. cbn in Hcount. lia. }
    assert (entry ∈ buyers_of_both a b purchase_history) as Hin by (rewrite Hl; left).
    apply list_elem_of_filter in Hin as [[Ha Hb] Hin]. by exists entry.
  - intros [Hab (entry & Hin & Ha & Hb)].
    assert (entry ∈ buyers_of_both a b purchase_history) as Hboth
      by (by apply list_elem_of_filter).
    pose proof (build_copurchase_graph_count purchase_history a b Hab) as Hcount.
    destruct (decide ((a, b) ∈ OD.keys (build_copurchase_graph purchase_history)))
      as [|Hnot]; [done|].
    apply get_None in Hnot. unfold edge_count in Hcount. rewrite Hnot in Hcount.
    destruct (buyers_of_both a b purchase_history); [by apply elem_of_nil in Hboth|].
    cbn in Hcount. unfold len in Hcount. cbn in Hcount. lia.
Qed.

Lemma NoDup_all_equal {A : Type} (l : list A) :
  NoDup l → (∀ x y, x ∈ l → y ∈ l → x = y) → (length l ≤ 1)%nat.
Proof.
  intros Hnd Heq. destruct l as [|x [|y l]]; cbn; [lia..|].
  exfalso. apply NoDup_cons in Hnd as [Hx _]. apply Hx.
  rewrite (Heq x y); [left | left | right; left].
Qed.

Lemma user_step_single_product (g : Graph) (user_id : string)
    (products : list string) :
  (∀ p q, p ∈ products → q ∈ products → p = q) →
  user_step g (user_id, products) = g.
Proof.
  intros Hsame. rewrite user_step_pairs. cbn [snd].
  pose proof (NoDup_all_equal (fromkeys products) (fromkeys_NoDup products)) as Hlen.
  destruct (fromkeys products) as [|x [|y l]] eqn:Hk; [done | done |].
  exfalso. cbn in Hlen.
  assert (S (S (length l)) ≤ 1)%nat; [|lia].
  apply Hlen. intros p q Hp Hq.
  apply Hsame; apply fromkeys_elem; by rewrite Hk.
Qed.

(** X3. A user whose purchases are all the same product (or who has no
    purchase) contributes nothing: the graph is the one built without that
    user, so repeated purchases of one product create no self-pair. *)
Theorem build_copurchase_graph_single_product (earlier later : PurchaseHistory)
    (user_id : string) (products : list string) :
  (∀ p q, p ∈ products → q ∈ products → p = q) →
  build_copurchase_graph (earlier ++ (user_id, products) :: later)
  = build_copurchase_graph (earlier ++ later).
Proof.
  intros Hsame. unfold build_copurchase_graph.
  rewrite !fold_left_app. cbn [fold_left].
  by rewrite user_step_single_product.
Qed.

Lemma build_copurchase_graph_single_product_witness :
  (∀ p q, p ∈ ["p1"; "p1"]%string → q ∈ ["p1"; "p1"]%string → p = q)
  ∧ build_copurchase_graph (history3 ++ ("u6", ["p1"; "p1"])%string :: history)
    = build_copurchase_graph (history3 ++ history).
Proof.
  assert (H : ∀ p q, p ∈ ["p1"; "p1"]%string → q ∈ ["p1"; "p1"]%string → p = q).
  { intros p q Hp Hq.
    assert (∀ r, r ∈ ["p1"; "p1"]%string → r = "p1"%string) as Hone.
    { intros r Hr. repeat (apply elem_of_cons in Hr as [Hr|Hr]; [exact Hr|]).
      by apply elem_of_nil in Hr. }
    by rewrite (Hone p Hp), (Hone q Hq). }
  split; [exact H|].
  exact (build_copurchase_graph_single_product history3 history "u6" _ H).
Defined.

(** ** Candidate scorer *)

(** X6. For every decay factor, the keys of the returned score map are
    exactly the products that are not owned and are the second component
    of a graph key whose first component is owned: a product without such
    an edge gets no entry, not a zero entry. *)
Theorem score_candidates_keys (owned : list string) (g : Graph) (decay : Q)
    (b : string) :
  b ∈ OD.keys (score_candidates owned g decay)
  ↔ (b ∉ owned) ∧ ∃ a c, a ∈ owned ∧ ((a, b), c) ∈ g.
Proof. apply elem_keys_score_candidates. Qed.

(** ** Fairness re-ranker *)

Lemma fairness_rerank_elem (candidates : ScoreMap) (products : Catalog)
    (top_k max_per_brand min_category_diversity : Z) (x : string * Q) :
  x ∈ fairness_rerank products top_k max_per_brand min_category_diversity candidates →
  x ∈ candidates ∧ is_Some (products !! x.1).
Proof.
  destruct (fairness_rerank_structure products top_k max_per_brand
              min_category_diversity candidates)
    as (added & -> & Hsub1 & Hsub2 & Hfp & Hadded).
  rewrite Forall_forall in Hfp, Hadded.
  intros [Hin|Hin]%elem_of_app.
  - split; [|by apply Hfp].
    apply (elem_of_sorted_desc score_le). by eapply elem_of_sublist.
  - split; [|by apply Hadded].
    apply (elem_of_sorted_desc score_le). by eapply elem_of_sublist.
Qed.

Lemma fairness_rerank_NoDup_keys (candidates : ScoreMap) (products : Catalog)
    (top_k max_per_brand min_category_diversity : Z) :
  OD.wf candidates →
  NoDup (fairness_rerank products top_k max_per_brand min_category_diversity
           candidates).*1.
Proof.
  intros Hwf.
  destruct (fairness_rerank_structure products top_k max_per_brand
              min_category_diversity candidates)
    as (added & -> & Hsub1 & Hsub2 & _ & Hnew).
  pose proof (sorted_desc_wf score_le candidates Hwf) as Hwf'.
  rewrite fmap_app. apply NoDup_app. split_and!.
  - apply (sublist_NoDup _ (sorted_desc score_le candidates).*1);
      [exact Hwf' | by apply fmap_sublist].
  - intros k (x & -> & Hx)%list_elem_of_fmap (y & Hxy & Hy)%list_elem_of_fmap.
    rewrite Forall_forall in Hnew. destruct (Hnew y Hy) as [_ Hc].
    assert (x = y) as ->.
    { apply (wf_elem_inj (sorted_desc score_le candidates)); [done| | |done];
        by eapply elem_of_sublist. }
    rewrite contains_elem in Hc; done.
  - apply (sublist_NoDup _ (sorted_desc score_le candidates).*1);
      [exact Hwf' | by apply fmap_sublist].
Qed.

(** A result shorter than [top_k] contains every candidate the catalog
    knows. *)
Lemma fairness_rerank_short_elem (candidates : ScoreMap) (products : Catalog)
    (top_k max_per_brand min_category_diversity : Z) (x : string * Q) :
  OD.wf candidates →
  len (fairness_rerank products top_k max_per_brand min_category_diversity candidates)
  < top_k →
  x ∈ candidates → is_Some (products !! x.1) →
  x ∈ fairness_rerank products top_k max_per_brand min_category_diversity candidates.
Proof.
  intros Hwf Hshort Hx Hp.
  assert (contains x (fairness_rerank products top_k max_per_brand
                        min_category_diversity candidates) = true) as Hc.
  { unfold fairness_rerank in *. case_bool_decide as Hlt; [|lia].
    apply backfill_exhausts; [done | by apply elem_of_sorted_desc | done]. }
  unfold contains in Hc. apply existsb_exists in Hc as (y & Hy & Heq).
  apply list_elem_of_In in Hy. unfold pair_eqb in Heq.
  apply andb_true_iff in Heq as [Heq%bool_decide_eq_true _].
  destruct (fairness_rerank_elem _ _ _ _ _ _ Hy) as [Hy' _].
  by rewrite (wf_elem_inj candidates x y Hwf Hx Hy' Heq).
Qed.

(** X7. The re-ranker returns only candidates whose product id the
    catalog knows: candidates with an unknown id are dropped by both
    passes, and nothing that is not a candidate is returned. *)
Theorem fairness_rerank_catalog_only (candidates : ScoreMap) (products : Catalog)
    (top_k max_per_brand min_category_diversity : Z) (x : string * Q) :
  x ∈ fairness_rerank products top_k max_per_brand min_category_diversity candidates →
  x ∈ catalog_present products candidates.
Proof.
  intros [Hin Hp]%fairness_rerank_elem. by apply list_elem_of_filter.
Qed.

Lemma fairness_rerank_catalog_only_witness :
  ("p1"%string, 3%Q) ∈ fairness_rerank catalog 2 1 2 aqua_candidates
  ∧ ("p1"%string, 3%Q) ∈ catalog_present catalog aqua_candidates.
Proof.
  assert (H : ("p1"%string, 3%Q) ∈ fairness_rerank catalog 2 1 2 aqua_candidates).
  { apply list_elem_of_In. vm_compute. by left. }
  split; [exact H|].
  exact (fairness_rerank_catalog_only _ _ _ _ _ _ H).
Defined.

(** X8. If the re-ranker returns fewer than [top_k] entries, then every
    candidate the catalog knows is in the result. *)
Theorem fairness_rerank_exhaustive (candidates : ScoreMap) (products : Catalog)
    (top_k max_per_brand min_category_diversity : Z) (x : string * Q) :
  OD.wf candidates →
  len (fairness_rerank products top_k max_per_brand min_category_diversity candidates)
  < top_k →
  x ∈ catalog_present products candidates →
  x ∈ fairness_rerank products top_k max_per_brand min_category_diversity candidates.
Proof.
  intros Hwf Hshort [Hp Hx]%list_elem_of_filter.
  by apply fairness_rerank_short_elem.
Qed.

Lemma fairness_rerank_exhaustive_witness :
  OD.wf aqua_candidates
  ∧ len (fairness_rerank catalog 5 1 2 aqua_candidates) < 5
  ∧ ("p2"%string, 2%Q) ∈ catalog_present catalog aqua_candidates
  ∧ ("p2"%string, 2%Q) ∈ fairness_rerank catalog 5 1 2 aqua_candidates.
Proof.
  assert (H1 : OD.wf aqua_candidates).
  { unfold OD.wf. apply (bool_decide_unpack _). vm_compute. exact I. }
  assert (H2 : len (fairness_rerank catalog 5 1 2 aqua_candidates) < 5)
    by (vm_compute; reflexivity).
  assert (H3 : ("p2"%string, 2%Q) ∈ catalog_present catalog aqua_candidates).
  { apply list_elem_of_In. vm_compute. right; by left. }
  split_and!; [exact H1 | exact H2 | exact H3 |].
  exact (fairness_rerank_exhaustive _ _ _ _ _ _ H1 H2 H3).
Defined.

(** X9. With [top_k >= 1] and [min_category_diversity <= 1] the result has
    exactly min(top_k, number of candidates the catalog knows) entries. *)
Theorem fairness_rerank_exact_length (candidates : ScoreMap) (products : Catalog)
    (top_k max_per_brand min_category_diversity : Z) :
  OD.wf candidates → 1 ≤ top_k → min_category_diversity ≤ 1 →
  len (fairness_rerank products top_k max_per_brand min_category_diversity candidates)
  = Z.min top_k (len (catalog_present products candidates)).
Proof.
  intros Hwf Hk Hdiv.
  set (out := fairness_rerank products top_k max_per_brand min_category_diversity
                candidates).
  pose proof (fairness_rerank_length_one_category candidates products top_k
                max_per_brand min_category_diversity Hk Hdiv) as Hle.
  fold out in Hle.
  assert (len out ≤ len (catalog_present products candidates)) as Hle'.
  { unfold len. apply inj_le, submseteq_length, NoDup_submseteq.
    - apply (NoDup_fmap_1 fst). by apply fairness_rerank_NoDup_keys.
    - intros x [Hx Hp]%fairness_rerank_elem. by apply list_elem_of_filter. }
  destruct (decide (len out < top_k)) as [Hshort|Hfull]; [|lia].
  assert (len (catalog_present products candidates) ≤ len out) as Hge; [|lia].
  unfold len. apply inj_le, submseteq_length, NoDup_submseteq.
  - apply (NoDup_fmap_1 fst).
    apply (sublist_NoDup _ candidates.*1); [exact Hwf|].
    apply fmap_sublist, sublist_filter.
  - intros x [Hp Hx]%list_elem_of_filter. by apply fairness_rerank_short_elem.
Qed.

Lemma fairness_rerank_exact_length_witness :
  OD.wf aqua_candidates ∧ 1 ≤ 2 ∧ 1 ≤ 1
  ∧ len (fairness_rerank catalog 2 1 1 aqua_candidates)
    = Z.min 2 (len (catalog_present catalog aqua_candidates)).
Proof.
  assert (H1 : OD.wf aqua_candidates).
  { unfold OD.wf. apply (bool_decide_unpack _). vm_compute. exact I. }
  assert (H2 : 1 ≤ 2) by lia.
  assert (H3 : 1 ≤ 1) by lia.
  split_and!; [exact H1 | exact H2 | exact H3 |].
  exact (fairness_rerank_exact_length aqua_candidates catalog 2 1 1 H1 H2 H3).
Defined.

Lemma sublist_StronglySorted {A : Type} (R : A → A → Prop) (l1 l2 : list A) :
  l1 `sublist_of` l2 → StronglySorted R l2 → StronglySorted R l1.
Proof.
  induction 1 as [|x l1 l2 Hsub IH|x l1 l2 Hsub IH]; intros Hs.
  - constructor.
  - apply StronglySorted_inv in Hs as [Hs Hx]. constructor; [by apply IH|].
    rewrite Forall_forall in *. intros y Hy. apply Hx. by eapply elem_of_sublist.
  - apply StronglySorted_inv in Hs as [Hs _]. by apply IH.
Qed.

(** X10. Fairness only skips, it never reorders within a pass: the result
    is the first-pass selection followed by the backfilled entries, and
    each of the two parts is a subsequence of [sorted_items], the
    candidates sorted by descending score; so each part is itself in
    descending score order. *)
Theorem fairness_rerank_descending (candidates : ScoreMap) (products : Catalog)
    (top_k max_per_brand min_category_diversity : Z) :
  ∃ added,
    fairness_rerank products top_k max_per_brand min_category_diversity candidates
    = first_pass_selection products top_k max_per_brand min_category_diversity candidates
      ++ added
    ∧ first_pass_selection products top_k max_per_brand min_category_diversity candidates
      `sublist_of` sorted_desc score_le candidates
    ∧ added `sublist_of` sorted_desc score_le candidates
    ∧ sorted_desc score_le candidates ≡ₚ candidates
    ∧ StronglySorted (λ x y, (y.2 <= x.2)%Q) (sorted_desc score_le candidates)
    ∧ StronglySorted (λ x y, (y.2 <= x.2)%Q)
        (first_pass_selection products top_k max_per_brand min_category_diversity
           candidates)
    ∧ StronglySorted (λ x y, (y.2 <= x.2)%Q) added.
Proof.
  destruct (fairness_rerank_structure products top_k max_per_brand
              min_category_diversity candidates)
    as (added & Hout & Hsub1 & Hsub2 & _).
  exists added. split_and!; [done | done | done | apply sorted_desc_perm
                             | apply sorted_desc_score_sorted | |];
    eapply sublist_StronglySorted; (done || apply sorted_desc_score_sorted).
Qed.

(** With a brand cap of zero or less the first loop accepts nothing. *)
Lemma first_pass_no_cap_room (products : Catalog)
    (top_k max_per_brand min_category_diversity : Z)
    (items : list (string * Q)) (st : RerankState) :
  (∀ b, max_per_brand ≤ counter_get (brand_counter st) b) →
  first_pass products top_k max_per_brand min_category_diversity items st = st.
Proof.
  intros Hcap. induction items as [|[pid score] rest IH]; [done|].
  cbn [first_pass]. destruct (products !! pid) as [prod|]; [|done].
  by rewrite bool_decide_eq_true_2 by apply Hcap.
Qed.

(** Started on keys it has not yet chosen, the second loop takes the
    catalog products among the items, in order, until [top_k] is reached. *)
Lemma backfill_take (products : Catalog) (top_k : Z)
    (items chosen : list (string * Q)) :
  NoDup items.*1 →
  (∀ x, x ∈ items → x.1 ∉ chosen.*1) →
  len chosen < top_k →
  backfill products top_k items chosen
  = chosen ++ take (Z.to_nat (top_k - len chosen)) (catalog_present products items).
Proof.
  revert chosen. induction items as [|[pid score] rest IH]; intros chosen Hnd Hnew Hlen.
  - cbn. by rewrite take_nil, app_nil_r.
  - rewrite fmap_cons in Hnd. apply NoDup_cons in Hnd as [Hpid Hnd].
    cbn [backfill].
    destruct (contains (pid, score) chosen) eqn:Hc.
    { apply contains_key in Hc. exfalso. by apply (Hnew (pid, score)); [left|]. }
    unfold catalog_present. rewrite filter_cons. cbn [fst].
    destruct (products !! pid) as [prod|] eqn:Hprod.
    2: { rewrite decide_False by (by intros [? ?]).
         apply IH; [done | | done]. intros x Hx. apply Hnew. by right. }
    rewrite decide_True by done.
    assert (len (chosen ++ [(pid, score)]) = len chosen + 1) as Hlen'
      by (by rewrite len_app).
    replace (Z.to_nat (top_k - len chosen))
      with (S (Z.to_nat (top_k - len (chosen ++ [(pid, score)])))) by lia.
    rewrite firstn_cons. case_bool_decide as Hk.
    + replace (top_k - len (chosen ++ [(pid, score)])) with 0 by lia.
      by rewrite take_0.
    + fold (catalog_present products rest).
      rewrite IH; [by rewrite <- app_assoc | done | | lia].
      intros x Hx. rewrite fmap_app, elem_of_app. intros [Hin|Hin].
      * by apply (Hnew x); [right|].
      * apply list_elem_of_singleton in Hin. cbn in Hin. apply Hpid.
        cbn [fst]. rewrite <- Hin. by apply list_elem_of_fmap_2.
Qed.

(** X11. With [max_per_brand <= 0] the first pass selects nothing, and the
    result is made by the backfill alone: the first [top_k] candidates the
    catalog knows, in descending score order, whatever their brands. *)
Theorem fairness_rerank_zero_brand_cap (candidates : ScoreMap) (products : Catalog)
    (top_k max_per_brand min_category_diversity : Z) :
  OD.wf candidates → max_per_brand ≤ 0 →
  fairness_rerank products top_k max_per_brand min_category_diversity candidates
  = take (Z.to_nat top_k)
      (catalog_present products (sorted_desc score_le candidates)).
Proof.
  intros Hwf Hcap. unfold fairness_rerank, first_pass_selection.
  rewrite first_pass_no_cap_room
    by (intros b; unfold counter_get; cbn [brand_counter init_state];
        rewrite lookup_empty; cbn [default]; lia).
  cbn [chosen init_state]. case_bool_decide as Hk.
  - rewrite backfill_take; [| by apply sorted_desc_wf | | done].
    + cbn [app]. change (len (@nil (string * Q))) with 0.
      by replace (top_k - 0) with top_k by lia.
    + intros x _. apply not_elem_of_nil.
  - change (len (@nil (string * Q))) with 0 in Hk.
    by replace (Z.to_nat top_k) with 0%nat by lia.
Qed.

Lemma fairness_rerank_zero_brand_cap_witness :
  OD.wf aqua_candidates ∧ 0 ≤ 0
  ∧ fairness_rerank catalog 2 0 2 aqua_candidates
    = take (Z.to_nat 2) (catalog_present catalog (sorted_desc score_le aqua_candidates)).
Proof.
  assert (H1 : OD.wf aqua_candidates).
  { unfold OD.wf. apply (bool_decide_unpack _). vm_compute. exact I. }
  assert (H2 : 0 ≤ 0) by lia.
  split_and!; [exact H1 | exact H2 |].
  exact (fairness_rerank_zero_brand_cap aqua_candidates catalog 2 0 2 H1 H2).
Defined.

(** ** The pipeline *)

Lemma score_candidates_wf (owned : list string) (g : Graph) (decay : Q) :
  OD.wf (score_candidates owned g decay).
Proof.
  unfold score_candidates.
  apply (fold_left_inv (λ m : ScoreMap, OD.wf m)); [apply NoDup_nil_2|].
  intros m [idx a] _ Hm. cbn [owned_step].
  apply (fold_left_inv (λ m : ScoreMap, OD.wf m)); [done|].
  intros m' [[a' b'] c] _ Hm'. unfold edge_step.
  destruct (_ && _); [by apply wf_upd | done].
Qed.

Lemma recommend_for_user_unfold (user_id : string)
    (purchase_history : PurchaseHistory) (products : Catalog) (top_k : Z) :
  recommend_for_user user_id purchase_history products top_k
  = (λ x : string * Q,
       (x.1, x.2,
        explain_recommendation x.1 (default [] (OD.get user_id purchase_history))
          (build_copurchase_graph purchase_history) products))
    <$> fairness_rerank products top_k 2 2
          (score_candidates (default [] (OD.get user_id purchase_history))
             (build_copurchase_graph purchase_history) default_decay).
Proof.
  unfold recommend_for_user.
  set (owned := default [] (OD.get user_id purchase_history)).
  set (g := build_copurchase_graph purchase_history).
  generalize (fairness_rerank products top_k 2 2
                (score_candidates owned g default_decay)).
  intros reranked.
  enough (∀ acc,
    fold_left
      (λ results '(pid, score),
         results ++ [(pid, score, explain_recommendation pid owned g products)])
      reranked acc
    = acc ++ ((λ x : string * Q,
                 (x.1, x.2, explain_recommendation x.1 owned g products))
              <$> reranked)) as H by apply (H []).
  induction reranked as [|[pid score] l IH]; intros acc; cbn [fold_left].
  - by rewrite app_nil_r.
  - rewrite IH, fmap_cons. cbn [fst snd]. by rewrite <- app_assoc.
Qed.

Lemma explain_recommendation_fallback_iff (product_id : string)
    (user_products : list string) (edge_to_count : Graph) (products : Catalog) :
  explain_recommendation product_id user_products edge_to_count products
  = fallback_text (display_title products product_id)
  ↔ contributions product_id user_products edge_to_count = [].
Proof.
  rewrite explain_recommendation_unfold.
  pose proof (take3_top3_of (contributions product_id user_products edge_to_count))
    as (rest & Hperm & _ & Hrest & _).
  destruct (take 3 _) as [|c top] eqn:Htake.
  - split; [|done]. intros _. destruct Hrest as [->|Hlen]; [|done].
    by apply Permutation_nil_r.
  - split.
    + intros H. by apply because_text_not_fallback in H.
    + intros Hnil. rewrite Hnil in Htake. done.
Qed.

(** X12. For every entry (product id, score, explanation) that
    [recommend_for_user] returns: the user does not own the product, the
    catalog knows the product, the score is the one the scorer computed for
    it, and the explanation is the explainer's text for it. *)
Theorem recommend_for_user_entries (user_id : string)
    (purchase_history : PurchaseHistory) (products : Catalog) (top_k : Z)
    (pid : string) (score : Q) (text : string) :
  (pid, score, text) ∈ recommend_for_user user_id purchase_history products top_k →
  (pid ∉ default [] (OD.get user_id purchase_history))
  ∧ is_Some (products !! pid)
  ∧ OD.get pid
      (score_candidates (default [] (OD.get user_id purchase_history))
         (build_copurchase_graph purchase_history) default_decay) = Some score
  ∧ text = explain_recommendation pid (default [] (OD.get user_id purchase_history))
             (build_copurchase_graph purchase_history) products.
Proof.
  rewrite recommend_for_user_unfold.
  intros ([pid' score'] & [= -> -> ->] & Hin)%list_elem_of_fmap. cbn [fst snd].
  apply fairness_rerank_elem in Hin as [Hin Hp].
  split_and!; [| done | | done].
  - apply (list_elem_of_fmap_2 fst) in Hin.
    by apply elem_keys_score_candidates in Hin as [Hn _].
  - apply elem_get_Some; [apply score_candidates_wf | done].
Qed.

Lemma recommend_for_user_entries_witness :
  ("p6"%string, (185 # 100)%Q,
   "Recommended 'Camping Stove' because you bought: Eco Water Bottle (1), Trail Backpack (1)"%string)
    ∈ recommend_for_user "u1" history catalog 5
  ∧ ("p6"%string ∉ default [] (OD.get "u1"%string history))
  ∧ is_Some (catalog !! "p6"%string)
  ∧ OD.get "p6"%string
      (score_candidates (default [] (OD.get "u1"%string history))
         (build_copurchase_graph history) default_decay) = Some (185 # 100)%Q
  ∧ "Recommended 'Camping Stove' because you bought: Eco Water Bottle (1), Trail Backpack (1)"%string
    = explain_recommendation "p6" (default [] (OD.get "u1"%string history))
        (build_copurchase_graph history) catalog.
Proof.
  assert (H : ("p6"%string, (185 # 100)%Q,
     "Recommended 'Camping Stove' because you bought: Eco Water Bottle (1), Trail Backpack (1)"%string)
    ∈ recommend_for_user "u1" history catalog 5).
  { apply list_elem_of_In. vm_compute. by left. }
  split; [exact H|].
  exact (recommend_for_user_entries "u1" history catalog 5 _ _ _ H).
Defined.

(** X13. No explanation returned by [recommend_for_user] is the generic
    fallback text: every recommended product has a positive co-purchase
    count with some product the user owns. *)
Theorem recommend_for_user_never_fallback (user_id : string)
    (purchase_history : PurchaseHistory) (products : Catalog) (top_k : Z)
    (pid : string) (score : Q) (text : string) :
  (pid, score, text) ∈ recommend_for_user user_id purchase_history products top_k →
  text ≠ fallback_text (display_title products pid)
  ∧ ∃ owned, owned ∈ default [] (OD.get user_id purchase_history)
             ∧ 0 < copurchase_count (build_copurchase_graph purchase_history) owned pid.
Proof.
  rewrite recommend_for_user_unfold.
  intros ([pid' score'] & [= -> -> ->] & Hin)%list_elem_of_fmap. cbn [fst snd].
  apply fairness_rerank_elem in Hin as [Hin _].
  apply (list_elem_of_fmap_2 fst) in Hin. cbn [fst] in Hin.
  apply elem_keys_score_candidates in Hin as [_ (a & c & Ha & Hc)].
  apply elem_get_Some in Hc; [|apply build_copurchase_graph_wf].
  pose proof (build_copurchase_graph_counts_positive _ _ _ Hc) as Hpos.
  assert (0 < copurchase_count (build_copurchase_graph purchase_history) a pid')
    as Hcount by (unfold copurchase_count; rewrite Hc; cbn; lia).
  split; [|by exists a].
  intros Hfb%explain_recommendation_fallback_iff.
  by apply (proj1 (contributions_nil _ _ _) Hfb a Ha).
Qed.

Lemma recommend_for_user_never_fallback_witness :
  ("p2"%string, 1%Q,
   "Recommended 'Insulated Mug' because you bought: Eco Water Bottle (1)"%string)
    ∈ recommend_for_user "u1" history catalog 5
  ∧ "Recommended 'Insulated Mug' because you bought: Eco Water Bottle (1)"%string
    ≠ fallback_text (display_title catalog "p2")
  ∧ ∃ owned, owned ∈ default [] (OD.get "u1"%string history)
             ∧ 0 < copurchase_count (build_copurchase_graph history) owned "p2".
Proof.
  assert (H : ("p2"%string, 1%Q,
     "Recommended 'Insulated Mug' because you bought: Eco Water Bottle (1)"%string)
    ∈ recommend_for_user "u1" history catalog 5).
  { apply list_elem_of_In. vm_compute. right; right; by left. }
  split; [exact H|].
  exact (recommend_for_user_never_fallback "u1" history catalog 5 _ _ _ H).
Defined.

(** X14. [recommend_for_user] recommends no product twice. *)
Theorem recommend_for_user_distinct (user_id : string)
    (purchase_history : PurchaseHistory) (products : Catalog) (top_k : Z) :
  NoDup (recommend_for_user user_id purchase_history products top_k).*1.*1.
Proof.
  rewrite recommend_for_user_unfold, <- !list_fmap_compose.
  apply (fairness_rerank_NoDup_keys _ products top_k 2 2), score_candidates_wf.
Qed.

(** X15. A user whose purchase list is empty gets no recommendation. *)
Theorem recommend_for_user_no_purchases (user_id : string)
    (purchase_history : PurchaseHistory) (products : Catalog) (top_k : Z) :
  OD.get user_id purchase_history = Some [] →
  recommend_for_user user_id purchase_history products top_k = [].
Proof.
  intros Hempty. unfold recommend_for_user. rewrite Hempty. cbn [default].
  unfold score_candidates. cbn [enumerate imap fold_left].
  by rewrite fairness_rerank_nil.
Qed.

Lemma recommend_for_user_no_purchases_witness :
  OD.get "u7"%string (history ++ [("u7"%string, [])]) = Some []
  ∧ recommend_for_user "u7" (history ++ [("u7"%string, [])]) catalog 5 = [].
Proof.
  assert (H : OD.get "u7"%string (history ++ [("u7"%string, [])]) = Some [])
    by reflexivity.
  split; [exact H|].
  exact (recommend_for_user_no_purchases "u7" _ catalog 5 H).
Defined.

(** ** Feedback prompt *)

Lemma collect_feedback_rejected (line : string) (rest : list string)
    (stdout : list io_event) :
  ¬ says_yes line → ¬ says_no line →
  collect_feedback (line :: rest) stdout
  = collect_feedback rest
      (stdout ++ [Prompted feedback_prompt; Printed feedback_retry]).
Proof.
  intros Hyes Hno. cbn [collect_feedback].
  rewrite !bool_decide_eq_false_2 by done. by rewrite <- app_assoc.
Qed.

(** X16. The answer is that of the first accepted line: if the lines read
    first are all rejected (neither y/yes nor n/no after stripping and
    lower-casing) and the next line is accepted, [collect_feedback] returns
    "positive" for y/yes and "negative" for n/no, leaves the lines after it
    unread, and has written the prompt once per line read and the retry
    message once per rejected line. *)
Theorem collect_feedback_first_answer (rejected : list string) (line : string)
    (rest : list string) (stdout : list io_event) :
  Forall (λ l, ¬ says_yes l ∧ ¬ says_no l) rejected →
  says_yes line ∨ says_no line →
  collect_feedback (rejected ++ line :: rest) stdout
  = (Answered (if bool_decide (says_yes line) then "positive" else "negative")%string,
     rest,
     stdout ++ retries rejected ++ [Prompted feedback_prompt]).
Proof.
  intros Hrej Hline. revert stdout.
  induction Hrej as [|l rejected [Hyes Hno] _ IH]; intros stdout.
  - cbn [app retries mbind list_bind collect_feedback].
    fold (says_yes line). fold (says_no line).
    case_bool_decide as Hy; [done|].
    destruct Hline as [?|Hn]; [done|]. by rewrite bool_decide_eq_true_2.
  - rewrite <- app_comm_cons, collect_feedback_rejected, IH by done.
    unfold retries. rewrite bind_cons. by rewrite <- !app_assoc.
Qed.

Lemma collect_feedback_first_answer_witness :
  Forall (λ l, ¬ says_yes l ∧ ¬ says_no l) ["maybe"; "yes please"]%string
  ∧ (says_yes "  YeS "%string ∨ says_no "  YeS "%string)
  ∧ collect_feedback
      (["maybe"; "yes please"]%string ++ "  YeS "%string :: ["n"%string]) []
    = (Answered (if bool_decide (says_yes "  YeS "%string)
                 then "positive" else "negative")%string,
       ["n"%string],
       [] ++ retries ["maybe"; "yes please"]%string ++ [Prompted feedback_prompt]).
Proof.
  assert (H1 : Forall (λ l, ¬ says_yes l ∧ ¬ says_no l) ["maybe"; "yes please"]%string).
  { repeat constructor; apply (bool_decide_unpack _); vm_compute; exact I. }
  assert (H2 : says_yes "  YeS "%string ∨ says_no "  YeS "%string).
  { left. apply (bool_decide_unpack _). vm_compute. exact I. }
  split_and!; [exact H1 | exact H2 |].
  exact (collect_feedback_first_answer _ _ _ _ H1 H2).
Defined.

(** X17. If every line of the input is rejected, [collect_feedback] does
    not return an answer: after one prompt and one retry message per line
    it prompts once more and [input] raises [EOFError]. *)
Theorem collect_feedback_no_answer (stdin : list string) (stdout : list io_event) :
  Forall (λ l, ¬ says_yes l ∧ ¬ says_no l) stdin →
  collect_feedback stdin stdout
  = (EOFError, [], stdout ++ retries stdin ++ [Prompted feedback_prompt]).
Proof.
  intros Hrej. revert stdout.
  induction Hrej as [|l stdin [Hyes Hno] _ IH]; intros stdout.
  - done.
  - rewrite collect_feedback_rejected, IH by done.
    unfold retries. rewrite bind_cons. by rewrite <- !app_assoc.
Qed.

Lemma collect_feedback_no_answer_witness :
  Forall (λ l, ¬ says_yes l ∧ ¬ says_no l) ["maybe"; "yes please"]%string
  ∧ collect_feedback ["maybe"; "yes please"]%string []
    = (EOFError, [],
       [] ++ retries ["maybe"; "yes please"]%string ++ [Prompted feedback_prompt]).
Proof.
  assert (H1 : Forall (λ l, ¬ says_yes l ∧ ¬ says_no l) ["maybe"; "yes please"]%string).
  { repeat constructor; apply (bool_decide_unpack _); vm_compute; exact I. }
  split; [exact H1|].
  exact (collect_feedback_no_answer _ _ H1).
Defined.
